(** * formHTR: consensus over recognised text regions

    A shallow embedding of [libs/processing/process_area.py] and the
    properties of its line segmentation, cross-source grouping, boundary
    reconciliation, character voting and orchestration.

    Conventions of the embedding.
    - Python numbers that hold coordinates (floats) are exact rationals [Q];
      [np.mean] is the sum divided by the length.
    - A Python exception is a value [Raise e] of the [result] type; a
      function that falls off its end returns Python's [None], which is
      [Ok None] at type [result (option _)].
    - A list the callee sorts in place is returned next to the result, so
      that the caller's view of its argument after the call is explicit.
    - [dict] is an association list in insertion order, as Python iterates
      it. *)

From Stdlib Require Import String Ascii.
From Stdlib Require Import List Bool Arith ZArith QArith Qabs.
From Stdlib Require Import Lia Lqa Permutation Sorted.
Import ListNotations.

Close Scope Q_scope.
Local Open Scope string_scope.
Local Open Scope list_scope.
Local Open Scope nat_scope.

Set Implicit Arguments.

(** ** Exceptions and results *)

Inductive exn : Type :=
| IndexError
| ValueError
| TypeError.

Inductive result (A : Type) : Type :=
| Ok (a : A)
| Raise (e : exn).

Arguments Ok {A} a.
Arguments Raise {A} e.

Definition bind {A B : Type} (m : result A) (k : A -> result B) : result B :=
  match m with
  | Ok a => k a
  | Raise e => Raise e
  end.

Notation "x <- m ;; k" := (bind m (fun x => k))
  (at level 61, m at next level, right associativity).

(** [for x in xs: acc.append(f(x))], stopping at the first exception. *)
Fixpoint for_append {A B : Type} (f : A -> result B) (xs : list A)
    (acc : list B) : result (list B) :=
  match xs with
  | [] => Ok acc
  | x :: xs' => y <- f x ;; for_append f xs' (acc ++ [y])
  end.

(** ** Numbers *)

Definition Qltb (a b : Q) : bool := negb (Qle_bool b a).
Definition Qgeb (a b : Q) : bool := Qle_bool b a.

Definition Qsum (xs : list Q) : Q := fold_left Qplus xs 0%Q.

(** [np.mean] *)
Definition mean (xs : list Q) : Q :=
  (Qsum xs / inject_Z (Z.of_nat (length xs)))%Q.

(** [max(xs)] and [min(xs)] of a list whose first element is [x]: the
    running value is replaced only by a strictly better one. *)
Definition max_from (x : Q) (xs : list Q) : Q :=
  fold_left (fun m y => if Qltb m y then y else m) xs x.
Definition min_from (x : Q) (xs : list Q) : Q :=
  fold_left (fun m y => if Qltb y m then y else m) xs x.

(** ** Sorting: [list.sort], a stable sort that only asks [<] *)

Section Sort.
Variable A : Type.
Variable lt : A -> A -> bool.

Fixpoint insert_sorted (x : A) (l : list A) : list A :=
  match l with
  | [] => [x]
  | y :: l' => if lt x y then x :: l else y :: insert_sorted x l'
  end.

(** Elements are inserted left to right, each one after the elements
    already placed that are not greater: equal keys keep their order. *)
Definition sort (l : list A) : list A :=
  fold_left (fun acc x => insert_sorted x acc) l [].
End Sort.

(** ** Geometry: the external collaborators *)

(** [Rectangle] lives outside this module; the attributes read here are
    fields. *)
Record Rectangle : Type := mkRectangle {
  start_x : Q;
  start_y : Q;
  end_x : Q;
  end_y : Q;
  center_x : Q;
  center_y : Q;
  width : Q;
  height : Q;
  content : string
}.

(** [ROI] is an object with the method [exceeding_rectangle]. *)
Record ROI : Type := mkROI {
  exceeding_rectangle : Rectangle -> bool
}.

Definition line : Type := list Rectangle.

(** ** check_barcode_area *)

Definition check_barcode_area {R : Type} (candidates : list (list R)) : bool :=
  let sums := map (@length R) candidates in
  forallb (fun i => i <=? 1) sums && (1 <=? list_sum sums).

(** ** separate_to_lines *)

(** The keys [rectangle.center_y] compared with [<]. *)
Definition center_ltb (a b : Rectangle) : bool :=
  Qltb (center_y a) (center_y b).

(** [rectangles.sort(key=lambda rectangle: rectangle.center_y)] *)
Definition sort_by_center (rectangles : list Rectangle) : list Rectangle :=
  sort center_ltb rectangles.

(** The [for rectangle in rectangles] loop, on the state
    [(lines, current_line, previous_y)]. *)
Fixpoint lines_loop (line_break_threshold : Q) (rectangles : list Rectangle)
    (lines : list line) (current_line : line) (previous_y : Q)
    : list line * line :=
  match rectangles with
  | [] => (lines, current_line)
  | rectangle :: rest =>
      let '(lines, current_line) :=
        if Qltb line_break_threshold (Qabs (center_y rectangle - previous_y))
        then (lines ++ [current_line], [])
        else (lines, current_line) in
      lines_loop line_break_threshold rest lines
        (current_line ++ [rectangle]) (center_y rectangle)
  end.

(** Returns the argument list as the call leaves it (sorted in place) and
    the returned value. *)
Definition separate_to_lines (rectangles : list Rectangle)
    : list Rectangle * result (list line) :=
  let rectangles := sort_by_center rectangles in
  let average_height := mean (map height rectangles) in
  let line_break_threshold := (average_height * (1 # 2))%Q in
  match rectangles with
  | [] => (rectangles, Raise IndexError)
  | first :: _ =>
      let '(lines, current_line) :=
        lines_loop line_break_threshold rectangles [] [] (center_y first) in
      (rectangles,
       Ok (match current_line with
           | [] => lines
           | _ :: _ => lines ++ [current_line]
           end))
  end.

(** ** get_max_words *)

Definition get_max_words (groups : list (list line)) : nat :=
  fold_left
    (fun max_words group =>
       fold_left (fun max_words l => Nat.max max_words (length l))
         group max_words)
    groups 0.

(** ** majority_vote *)

Definition space : ascii := " "%char.

(** [s.ljust(n)] *)
Definition ljust (s : list ascii) (n : nat) : list ascii :=
  s ++ repeat space (n - length s).

(** [zip( *rows )]: one tuple per index below the shortest length. *)
Definition zip_star (rows : list (list ascii)) : list (list ascii) :=
  match rows with
  | [] => []
  | r :: rs =>
      map (fun i => map (fun row => nth i row space) rows)
        (seq 0 (fold_left Nat.min (map (@length ascii) rs) (length r)))
  end.

(** [count[char] = count.get(char, 0) + 1] on a dict in insertion order. *)
Fixpoint dict_incr (char : ascii) (count : list (ascii * nat))
    : list (ascii * nat) :=
  match count with
  | [] => [(char, 1)]
  | (k, v) :: rest =>
      if Ascii.eqb k char then (k, v + 1) :: rest
      else (k, v) :: dict_incr char rest
  end.

Definition count_chars (chars : list ascii) : list (ascii * nat) :=
  fold_left (fun count char => dict_incr char count) chars [].

(** [max(count, key=count.get)]: the running best entry is replaced only
    by one with a strictly larger value, so the first key, in iteration
    order, whose value is not exceeded wins. *)
Fixpoint max_entry_from (best : ascii * nat) (count : list (ascii * nat))
    : ascii * nat :=
  match count with
  | [] => best
  | kv :: rest =>
      max_entry_from (if snd best <? snd kv then kv else best) rest
  end.

Definition max_key (count : list (ascii * nat)) : result ascii :=
  match count with
  | [] => Raise ValueError
  | kv :: rest => Ok (fst (max_entry_from kv rest))
  end.

Definition max_length (strings : list string) : result nat :=
  match strings with
  | [] => Raise ValueError
  | s :: rest =>
      Ok (fold_left Nat.max (map String.length rest) (String.length s))
  end.

Definition majority_vote (strings : list string) : result string :=
  max_length <- max_length strings ;;
  let padded_strings :=
    map (fun s => ljust (list_ascii_of_string s) max_length) strings in
  voted <- for_append (fun chars => max_key (count_chars chars))
             (zip_star padded_strings) [] ;;
  Ok (string_of_list_ascii voted).

(** ** filter_exceeding_words *)

Fixpoint reduce_line (roi : ROI) (l : line) (reduced_line : line)
    (exceeding_indicator : bool) : line * bool :=
  match l with
  | [] => (reduced_line, exceeding_indicator)
  | rectangle :: rest =>
      let rectangle_exceeding := exceeding_rectangle roi rectangle in
      reduce_line roi rest
        (if negb rectangle_exceeding then reduced_line ++ [rectangle]
         else reduced_line)
        (exceeding_indicator || rectangle_exceeding)
  end.

Fixpoint reduce_lines (roi : ROI) (lines : list line)
    (indicators : list bool) (reduced_lines : list line)
    : list bool * list line :=
  match lines with
  | [] => (indicators, reduced_lines)
  | l :: rest =>
      let '(reduced_line, exceeding_indicator) :=
        reduce_line roi l [] false in
      reduce_lines roi rest (indicators ++ [exceeding_indicator])
        (reduced_lines ++ [reduced_line])
  end.

Definition py_all (bs : list bool) : bool := forallb (fun b => b) bs.
Definition py_any (bs : list bool) : bool := existsb (fun b => b) bs.

Definition filter_exceeding_words (lines : list line) (roi : ROI)
    : list line :=
  let '(indicators, reduced_lines) := reduce_lines roi lines [] [] in
  if negb (py_all indicators || negb (py_any indicators))
  then reduced_lines
  else lines.

(** ** align_lines *)

Definition groups_dict : Type := list (Q * list line).

(** [groups[key] = value] *)
Fixpoint dict_set (groups : groups_dict) (key : Q) (value : list line)
    : groups_dict :=
  match groups with
  | [] => [(key, value)]
  | (k, v) :: rest =>
      if Qeq_bool k key then (k, value) :: rest
      else (k, v) :: dict_set rest key value
  end.

(** The [for group_center in groups.keys()] loop. *)
Fixpoint join_groups (bottom top : Q) (l : line) (groups : groups_dict)
    (grouped : bool) : groups_dict * bool :=
  match groups with
  | [] => ([], grouped)
  | (group_center, members) :: rest =>
      let hit := Qgeb bottom group_center && Qgeb group_center top in
      let '(rest', grouped') :=
        join_groups bottom top l rest (grouped || hit) in
      ((group_center, if hit then members ++ [l] else members) :: rest',
       grouped')
  end.

Definition line_center (l : line) : Q := mean (map center_y l).

Definition line_bottom (first : Rectangle) (rest : line) : Q :=
  max_from (end_y first) (map end_y rest).

Definition line_top (first : Rectangle) (rest : line) : Q :=
  min_from (start_y first) (map start_y rest).

(** The body of [for line in lines]. *)
Definition add_line (groups : groups_dict) (l : line) : result groups_dict :=
  match l with
  | [] => Raise ValueError
  | first :: rest =>
      let center := line_center l in
      let bottom := line_bottom first rest in
      let top := line_top first rest in
      let '(groups, grouped) := join_groups bottom top l groups false in
      Ok (if negb grouped then dict_set groups center [l] else groups)
  end.

Fixpoint add_lines (groups : groups_dict) (lines : list line)
    : result groups_dict :=
  match lines with
  | [] => Ok groups
  | l :: rest => groups <- add_line groups l ;; add_lines groups rest
  end.

Fixpoint add_candidates (groups : groups_dict)
    (candidate_lines : list (list line)) : result groups_dict :=
  match candidate_lines with
  | [] => Ok groups
  | lines :: rest =>
      groups <- add_lines groups lines ;; add_candidates groups rest
  end.

(** The dict [groups] when the loops are over. *)
Definition align_lines_groups (candidate_lines : list (list line))
    : result groups_dict :=
  add_candidates [] candidate_lines.

Definition align_lines (candidate_lines : list (list line))
    : result (list (list line)) :=
  groups <- align_lines_groups candidate_lines ;;
  Ok (map snd groups).

(** ** The consensus engine and the orchestrator *)

Definition newline : string := String "010"%char EmptyString.

(** [sep.join(words)]: a [None] among the words is a [TypeError]. *)
Fixpoint str_items (words : list (option string)) : result (list string) :=
  match words with
  | [] => Ok []
  | None :: _ => Raise TypeError
  | Some w :: rest => ws <- str_items rest ;; Ok (w :: ws)
  end.

Definition str_join (sep : string) (words : list (option string))
    : result string :=
  ws <- str_items words ;; Ok (String.concat sep ws).

Definition line_text (l : line) : string :=
  String.concat " " (map content l).

Section Pipeline.

(** [Bio.pairwise2.align.globalxs(a, b, -3, -1, gap_char=' ')]: the list
    of alignments, each reduced to its two gapped sequences. *)
Variable globalxs : string -> string -> list (string * string).

(** [Rectangle.__lt__], which [line.sort()] asks. *)
Variable rect_lt : Rectangle -> Rectangle -> bool.

Definition align_pairwise (string_1 string_2 : string) : result string :=
  match globalxs string_1 string_2 with
  | [] => Raise IndexError
  | alignment :: _ => Ok (fst alignment)
  end.

Definition identify_words (lines : list string) : result (option string) :=
  match lines with
  | [only] => Ok (Some only)
  | [line_0; line_1] =>
      align_1 <- align_pairwise line_0 line_1 ;;
      align_2 <- align_pairwise line_1 line_0 ;;
      voted <- majority_vote [align_1; align_2] ;;
      Ok (Some voted)
  | [_; _; _] =>
      results <-
        for_append
          (fun i =>
             let this := nth i lines EmptyString in
             let other1 := nth ((i + 1) mod 3) lines EmptyString in
             let other2 := nth ((i + 2) mod 3) lines EmptyString in
             align1 <- align_pairwise this other1 ;;
             align2 <- align_pairwise this other2 ;;
             align_pairwise align1 align2)
          (seq 0 (length lines)) [] ;;
      voted <- majority_vote results ;;
      Ok (Some voted)
  | _ => Ok None
  end.

Definition process_lines (lines : list line) (roi : ROI)
    : result (option string) :=
  let lines := filter_exceeding_words lines roi in
  let lines_of_words := map (map content) lines in
  let lines_of_words :=
    filter (fun words => match words with [] => false | _ => true end)
      lines_of_words in
  identify_words (map (String.concat " ") lines_of_words).

(** The first loop of [general_text_area]; the first component is the
    caller's [candidates] as the loop leaves them. *)
Fixpoint separate_candidates (candidates : list (list Rectangle))
    (candidate_lines : list (list line))
    : list (list Rectangle) * result (list (list line)) :=
  match candidates with
  | [] => ([], Ok candidate_lines)
  | candidate :: rest =>
      match candidate with
      | [] =>
          let '(rest', r) := separate_candidates rest candidate_lines in
          (candidate :: rest', r)
      | _ :: _ =>
          match separate_to_lines candidate with
          | (candidate', Raise e) => (candidate' :: rest, Raise e)
          | (candidate', Ok lines) =>
              let lines := map (sort rect_lt) lines in
              let '(rest', r) :=
                separate_candidates rest (candidate_lines ++ [lines]) in
              (candidate' :: rest', r)
          end
      end
  end.

Definition fallback_words (group : list line) : result (option string) :=
  match nth_error group 1 with
  | None => Raise IndexError
  | Some l => Ok (Some (line_text l))
  end.

Definition general_text_area (candidates : list (list Rectangle))
    (roi : ROI) : list (list Rectangle) * result string :=
  let '(candidates', separated) := separate_candidates candidates [] in
  (candidates',
   candidate_lines <- separated ;;
   aligned_groups <- align_lines candidate_lines ;;
   let max_words := get_max_words aligned_groups in
   words <-
     (if (length aligned_groups <=? 3) && (max_words <=? 5)
      then for_append (fun group => process_lines group roi)
             aligned_groups []
      else for_append fallback_words aligned_groups []) ;;
   str_join newline words).

End Pipeline.

(** ** The alignment library

    [Bio.pairwise2] is an external library. What the consensus engine
    relies on is stated here as a contract on the aligner it is given: the
    first alignment returned for two non-empty sequences is a best-scoring
    global alignment under the scoring of [globalxs(a, b, -3, -1)]
    (identical characters 1, different characters 0, opening a gap -3,
    extending it -1), rendered with the space as gap character. *)

(** A column of an alignment. *)
Inductive column : Type :=
| Both (a b : ascii)      (* a character of each sequence *)
| GapInB (a : ascii)      (* a character of the first sequence, a gap in the second *)
| GapInA (b : ascii).     (* a gap in the first sequence, a character of the second *)

(** The kind of the previous column, which prices the next gap column. *)
Inductive gap_state : Type :=
| NoGap
| OpenInA
| OpenInB.

Definition next_state (c : column) : gap_state :=
  match c with
  | Both _ _ => NoGap
  | GapInB _ => OpenInB
  | GapInA _ => OpenInA
  end.

Definition column_score (prev : gap_state) (c : column) : Z :=
  match c with
  | Both a b => if Ascii.eqb a b then 1 else 0
  | GapInB _ => match prev with OpenInB => -1 | _ => -3 end
  | GapInA _ => match prev with OpenInA => -1 | _ => -3 end
  end%Z.

Fixpoint score (prev : gap_state) (cols : list column) : Z :=
  match cols with
  | [] => 0
  | c :: rest => column_score prev c + score (next_state c) rest
  end%Z.

(** The sequences an alignment aligns. *)
Fixpoint seqA (cols : list column) : list ascii :=
  match cols with
  | [] => []
  | Both a _ :: rest => a :: seqA rest
  | GapInB a :: rest => a :: seqA rest
  | GapInA _ :: rest => seqA rest
  end.

Fixpoint seqB (cols : list column) : list ascii :=
  match cols with
  | [] => []
  | Both _ b :: rest => b :: seqB rest
  | GapInB _ :: rest => seqB rest
  | GapInA b :: rest => b :: seqB rest
  end.

(** The gapped sequences, with the space as gap character. *)
Definition gappedA (cols : list column) : list ascii :=
  map (fun c => match c with
                | Both a _ => a
                | GapInB a => a
                | GapInA _ => space
                end) cols.

Definition gappedB (cols : list column) : list ascii :=
  map (fun c => match c with
                | Both _ b => b
                | GapInB _ => space
                | GapInA b => b
                end) cols.

Definition aligns (cols : list column) (a b : string) : Prop :=
  seqA cols = list_ascii_of_string a /\ seqB cols = list_ascii_of_string b.

Definition best_alignment (cols : list column) (a b : string) : Prop :=
  aligns cols a b /\
  forall cols', aligns cols' a b -> (score NoGap cols' <= score NoGap cols)%Z.

(** The contract of [globalxs]. *)
Definition optimal_aligner
    (globalxs : string -> string -> list (string * string)) : Prop :=
  forall a b,
    a <> EmptyString -> b <> EmptyString ->
    exists cols rest,
      globalxs a b
      = (string_of_list_ascii (gappedA cols),
         string_of_list_ascii (gappedB cols)) :: rest /\
      best_alignment cols a b.

(** *** A reference aligner

    Modelled from the spec: the library behind [align_pairwise] is not part
    of the sources. This aligner searches every global alignment of its
    arguments and returns a best-scoring one under the scoring above; like
    [pairwise2], it returns no alignment when a sequence is empty. Among
    equal scores it prefers a pair of characters, then a gap in the second
    sequence, then a gap in the first. *)

Definition extend (prev : gap_state) (c : column)
    (tail : Z * list column) : Z * list column :=
  ((column_score prev c + fst tail)%Z, c :: snd tail).

Definition better (x y : Z * list column) : Z * list column :=
  if (fst x <? fst y)%Z then y else x.

Fixpoint only_gaps_in_A (prev : gap_state) (b : list ascii)
    : Z * list column :=
  match b with
  | [] => (0%Z, [])
  | y :: b' => extend prev (GapInA y) (only_gaps_in_A OpenInA b')
  end.

Fixpoint only_gaps_in_B (prev : gap_state) (a : list ascii)
    : Z * list column :=
  match a with
  | [] => (0%Z, [])
  | x :: a' => extend prev (GapInB x) (only_gaps_in_B OpenInB a')
  end.

Fixpoint best (prev : gap_state) (a b : list ascii) {struct a}
    : Z * list column :=
  match a with
  | [] => only_gaps_in_A prev b
  | x :: a' =>
      (fix best_b (prev : gap_state) (b : list ascii) {struct b}
         : Z * list column :=
         match b with
         | [] => only_gaps_in_B prev (x :: a')
         | y :: b' =>
             better
               (better (extend prev (Both x y) (best NoGap a' b'))
                  (extend prev (GapInB x) (best OpenInB a' (y :: b'))))
               (extend prev (GapInA y) (best_b OpenInA b'))
         end) prev b
  end.

Definition reference_globalxs (a b : string) : list (string * string) :=
  match a, b with
  | EmptyString, _ => []
  | _, EmptyString => []
  | _, _ =>
      let cols :=
        snd (best NoGap (list_ascii_of_string a) (list_ascii_of_string b)) in
      [(string_of_list_ascii (gappedA cols),
        string_of_list_ascii (gappedB cols))]
  end.

(** Modelled from the spec: [Rectangle.__lt__] is not part of the sources;
    rectangles are ordered for reading by their horizontal position. *)
Definition reference_lt (a b : Rectangle) : bool :=
  Qltb (start_x a) (start_x b).

(** ** Vocabulary of the statements *)

(** A line's exceedance indicator: at least one of its rectangles exceeds
    the ROI. *)
Definition line_exceeds (roi : ROI) (l : line) : bool :=
  existsb (exceeding_rectangle roi) l.

(** A line without its exceeding rectangles. *)
Definition within_roi (roi : ROI) (l : line) : line :=
  filter (fun rectangle => negb (exceeding_rectangle roi rectangle)) l.

(** Ascending vertical centers. *)
Definition center_le (a b : Rectangle) : Prop :=
  (center_y a <= center_y b)%Q.

(** The value [separate_to_lines] returns from the loop's final state. *)
Definition flush (lines : list line) (current_line : line) : list line :=
  match current_line with
  | [] => lines
  | _ :: _ => lines ++ [current_line]
  end.

(** The lines cut from a sorted, non-empty sequence. *)
Definition segment (first : Rectangle) (rest : list Rectangle) : list line :=
  let t := (mean (map height (first :: rest)) * (1 # 2))%Q in
  let st := lines_loop t (first :: rest) [] [] (center_y first) in
  flush (fst st) (snd st).

(** A rectangle whose vertical center lies between its vertical bounds. *)
Definition centered (r : Rectangle) : Prop :=
  (start_y r <= center_y r <= end_y r)%Q.

(** The vertical span [top, bottom] of a line contains [c]. *)
Definition span_covers (l : line) (c : Q) : Prop :=
  exists first rest,
    l = first :: rest /\
    (line_top first rest <= c <= line_bottom first rest)%Q.

(** The test [bottom >= group_center >= top] of the grouper. *)
Definition covers (l : line) (c : Q) : bool :=
  match l with
  | [] => false
  | first :: rest =>
      Qgeb (line_bottom first rest) c && Qgeb c (line_top first rest)
  end.

(** The groups after line [l] was appended to every group it covers. *)
Definition joined (l : line) (groups : groups_dict) : groups_dict :=
  map (fun g => (fst g, if covers l (fst g) then snd g ++ [l] else snd g))
    groups.


(** Every member of a group covers the group's center, and the group was
    founded by its first member. *)
Definition group_ok (g : Q * list line) : Prop :=
  Forall (fun l => span_covers l (fst g)) (snd g) /\
  exists founder others,
    snd g = founder :: others /\ fst g = line_center founder.

Definition line_ok (l : line) : Prop := l <> [] /\ Forall centered l.

(** The length of the longest string. *)
Definition longest (strings : list string) : nat :=
  list_max (map String.length strings).

(** The strings, each padded on the right with spaces to length [n]. *)
Definition padded (strings : list string) (n : nat) : list (list ascii) :=
  map (fun s => ljust (list_ascii_of_string s) n) strings.

(** The characters at position [i], one per row. *)
Definition chars_at (i : nat) (rows : list (list ascii)) : list ascii :=
  map (fun row => nth i row space) rows.

Definition occurrences (col : list ascii) (c : ascii) : nat :=
  count_occ ascii_dec col c.

(** [c] occurs in [col] at least as often as any character, and every
    character met before the first [c] occurs strictly less often. *)
Definition first_most_common (col : list ascii) (c : ascii) : Prop :=
  (forall d, occurrences col d <= occurrences col c) /\
  exists before after,
    col = before ++ c :: after /\
    ~ In c before /\
    forall d, In d before -> occurrences col d < occurrences col c.

(** The characters of [col] other than [c]. *)
Definition others_than (c : ascii) (col : list ascii) : list ascii :=
  filter (fun x => negb (Ascii.eqb c x)) col.

(** The winning entry of a column's count dict. *)
Definition winner (col : list ascii) : ascii * nat :=
  match count_chars col with
  | [] => (space, 0)
  | kv :: rest => max_entry_from kv rest
  end.

(** The number of gap columns. *)
Fixpoint gaps (cols : list column) : nat :=
  match cols with
  | [] => 0
  | Both _ _ :: rest => gaps rest
  | _ :: rest => S (gaps rest)
  end.

(** The alignment of a sequence with itself that has no gap. *)
Definition diagonal (s : list ascii) : list column :=
  map (fun c => Both c c) s.

(** Pairs of a score and an alignment of [a] and [b] that has it. *)
Definition scored (prev : gap_state) (a b : list ascii)
    (r : Z * list column) : Prop :=
  seqA (snd r) = a /\ seqB (snd r) = b /\ fst r = score prev (snd r).

Definition nonempty {A : Type} (l : list A) : bool :=
  match l with
  | [] => false
  | _ :: _ => true
  end.

(** The lines the segmenter cuts from a candidate. *)
Definition segmented (candidate : list Rectangle) : list line :=
  match sort_by_center candidate with
  | [] => []
  | first :: rest => segment first rest
  end.

(** The lines of every non-empty candidate, each sorted for reading. *)
Definition candidate_lines_of (rect_lt : Rectangle -> Rectangle -> bool)
    (candidates : list (list Rectangle)) : list (list line) :=
  map (fun candidate => map (sort rect_lt) (segmented candidate))
    (filter nonempty candidates).

(** The line groups [general_text_area] works on. *)
Definition text_area_groups (rect_lt : Rectangle -> Rectangle -> bool)
    (candidates : list (list Rectangle)) : result (list (list line)) :=
  align_lines (candidate_lines_of rect_lt candidates).

(** A box of side 10 with its text, for the examples. *)
Definition word_box (x y : Q) (text : string) : Rectangle :=
  mkRectangle x y (x + 10) (y + 10) (x + 5) (y + 5) 10 10 text.

(** *** Vocabulary of the further properties *)

(** How the loop cuts [rectangles] after a rectangle of center [prev]: the
    rectangles that continue the current line, and the lines after it. *)
Fixpoint continuation (t prev : Q) (rectangles : list Rectangle)
    : line * list line :=
  match rectangles with
  | [] => ([], [])
  | r :: rest =>
      let '(c, more) := continuation t (center_y r) rest in
      if Qltb t (Qabs (center_y r - prev))
      then ([], (r :: c) :: more)
      else (r :: c, more)
  end.

(** [s.ljust(n)] on strings. *)
Definition ljust_string (s : string) (n : nat) : string :=
  string_of_list_ascii (ljust (list_ascii_of_string s) n).

(** Two lines whose vertical spans share a height. *)
Definition spans_overlap (l1 l2 : line) : Prop :=
  exists c, span_covers l1 c /\ span_covers l2 c.

(** Every line seen so far is a member of some group, there are no more
    groups than lines seen, and no group is empty. *)
Definition groups_hold (groups : groups_dict) (seen : list line) : Prop :=
  (forall l, In l seen -> exists g, In g groups /\ In l (snd g)) /\
  length groups <= length seen /\
  Forall (fun g => snd g <> []) groups.

(** * Properties *)

(** ** Results and loops *)

Lemma for_append_app (A B : Type) (f : A -> result B) (xs : list A)
    (acc : list B) :
  for_append f xs acc = (ys <- for_append f xs [] ;; Ok (acc ++ ys)).
Proof.
  revert acc. induction xs as [|x xs IH]; intros acc; simpl.
  - now rewrite app_nil_r.
  - destruct (f x) as [y|e]; simpl; [|reflexivity].
    rewrite IH. rewrite (IH [y]).
    destruct (for_append f xs []) as [ys|e]; simpl; [|reflexivity].
    now rewrite <- app_assoc.
Qed.

(** A loop of appends succeeds exactly when every call does, and then it
    collects the values in order. *)
Lemma for_append_Ok (A B : Type) (f : A -> result B) (xs : list A)
    (ys : list B) :
  for_append f xs [] = Ok ys <-> Forall2 (fun x y => f x = Ok y) xs ys.
Proof.
  revert ys. induction xs as [|x xs IH]; intros ys; simpl.
  - split.
    + intros H. injection H as <-. constructor.
    + intros H. inversion H. reflexivity.
  - split.
    + destruct (f x) as [y|e] eqn:Hx; simpl; [|discriminate].
      rewrite for_append_app.
      destruct (for_append f xs []) as [zs|e] eqn:Hxs; simpl; [|discriminate].
      intros H. injection H as <-. constructor; [assumption|].
      now apply IH.
    + intros H. inversion H as [|x' y xs' zs Hxy Hrest]; subst.
      rewrite Hxy. simpl. rewrite for_append_app.
      apply IH in Hrest. now rewrite Hrest.
Qed.

(** ** Region sanity checker *)

(** C9. [check_barcode_area] answers true exactly when every source reports
    at most one rectangle and the sources together report at least one; the
    three sample area shapes give true, false and false. *)
Theorem check_barcode_area_iff (R : Type) (candidates : list (list R)) :
  (check_barcode_area candidates = true <->
     Forall (fun item => length item <= 1) candidates /\
     1 <= length (concat candidates)) /\
  (forall r : R,
     check_barcode_area [[r]; []; []] = true /\
     check_barcode_area [[r; r]; []] = false) /\
  check_barcode_area ([[]; []] : list (list R)) = false.
Proof.
  split; [|split; [intros r; split|]; reflexivity].
  unfold check_barcode_area.
  rewrite andb_true_iff, forallb_forall, Nat.leb_le, length_concat.
  rewrite Forall_forall.
  split; intros [Hall Hsum]; (split; [|exact Hsum]).
  - intros item Hin. apply Nat.leb_le, Hall, in_map, Hin.
  - intros i Hin. apply in_map_iff in Hin as [item [<- Hin]].
    apply Nat.leb_le, Hall, Hin.
Qed.

(** ** Boundary reconciler *)

Section Reconciler.
Variable roi : ROI.

Lemma reduce_line_eq (l reduced : line) (ind : bool) :
  reduce_line roi l reduced ind
  = (reduced ++ within_roi roi l, ind || line_exceeds roi l).
Proof.
  revert reduced ind. induction l as [|r l IH]; intros reduced ind; simpl.
  - now rewrite app_nil_r, orb_false_r.
  - rewrite IH. destruct (exceeding_rectangle roi r); simpl.
    + now rewrite orb_true_r.
    + now rewrite <- app_assoc, orb_false_r.
Qed.

Lemma reduce_lines_eq (lines : list line) (inds : list bool)
    (reduced : list line) :
  reduce_lines roi lines inds reduced
  = (inds ++ map (line_exceeds roi) lines, reduced ++ map (within_roi roi) lines).
Proof.
  revert inds reduced.
  induction lines as [|l lines IH]; intros inds reduced; simpl.
  - now rewrite !app_nil_r.
  - rewrite reduce_line_eq, IH. simpl. now rewrite <- !app_assoc.
Qed.

Lemma py_all_true (bs : list bool) :
  py_all bs = true <-> Forall (fun b => b = true) bs.
Proof.
  unfold py_all. rewrite forallb_forall, Forall_forall. reflexivity.
Qed.

Lemma py_any_false (bs : list bool) :
  py_any bs = false <-> Forall (fun b => b = false) bs.
Proof.
  unfold py_any. induction bs as [|b bs IH]; simpl.
  - split; [constructor | reflexivity].
  - rewrite orb_false_iff, IH. split.
    + intros [Hb Hbs]. now constructor.
    + intros H. inversion H. now split.
Qed.

Lemma within_roi_inside (l : line) :
  Forall (fun rectangle => exceeding_rectangle roi rectangle = false)
    (within_roi roi l).
Proof.
  apply Forall_forall. intros r Hin.
  apply filter_In in Hin as [_ Hr]. now apply negb_true_iff.
Qed.

(** C2. When the per-line exceedance indicators agree (all true or all
    false) the reconciler returns its input; when they are mixed it
    returns one reduced line per input line, in the same order, and no
    rectangle that is left exceeds the ROI. *)
Theorem filter_exceeding_words_cases (lines : list line) :
  let indicators := map (line_exceeds roi) lines in
  let agree :=
    Forall (fun b => b = true) indicators \/
    Forall (fun b => b = false) indicators in
  (agree -> filter_exceeding_words lines roi = lines) /\
  (~ agree ->
     filter_exceeding_words lines roi = map (within_roi roi) lines /\
     length (filter_exceeding_words lines roi) = length lines /\
     Forall
       (Forall (fun rectangle => exceeding_rectangle roi rectangle = false))
       (filter_exceeding_words lines roi)).
Proof.
  intros indicators agree. unfold filter_exceeding_words.
  rewrite reduce_lines_eq. simpl. fold indicators.
  destruct (py_all indicators || negb (py_any indicators)) eqn:Hagree; simpl.
  - split; [reflexivity|]. intros Hmixed. exfalso. apply Hmixed.
    apply orb_true_iff in Hagree as [Hall | Hnone].
    + left. now apply py_all_true.
    + right. apply py_any_false. now apply negb_true_iff.
  - split.
    + intros [Hall | Hnone]; exfalso.
      * apply py_all_true in Hall. rewrite Hall in Hagree. discriminate.
      * apply py_any_false in Hnone. rewrite Hnone, orb_true_r in Hagree.
        discriminate.
    + intros _. split; [reflexivity|]. split.
      * apply length_map.
      * apply Forall_forall. intros l Hin.
        apply in_map_iff in Hin as [l0 [<- _]]. apply within_roi_inside.
Qed.
End Reconciler.

(** ** Rationals *)

Lemma Qltb_true (a b : Q) : Qltb a b = true <-> (a < b)%Q.
Proof.
  unfold Qltb. rewrite negb_true_iff. split.
  - intros H. apply Qnot_le_lt. intros Hle.
    apply Qle_bool_iff in Hle. congruence.
  - intros H. destruct (Qle_bool b a) eqn:E; [|reflexivity].
    apply Qle_bool_iff in E. exfalso. exact (Qlt_not_le _ _ H E).
Qed.

Lemma Qltb_false (a b : Q) : Qltb a b = false <-> (b <= a)%Q.
Proof.
  unfold Qltb. rewrite negb_false_iff. apply Qle_bool_iff.
Qed.

Lemma Qgeb_true (a b : Q) : Qgeb a b = true <-> (b <= a)%Q.
Proof. apply Qle_bool_iff. Qed.

Lemma Qsum_from (xs : list Q) (a : Q) :
  (fold_left Qplus xs a == a + Qsum xs)%Q.
Proof.
  unfold Qsum. revert a. induction xs as [|x xs IH]; intros a; simpl.
  - ring.
  - rewrite IH, (IH (0 + x)%Q). ring.
Qed.

Lemma Qsum_cons (x : Q) (xs : list Q) : (Qsum (x :: xs) == x + Qsum xs)%Q.
Proof. unfold Qsum at 1. simpl. rewrite Qsum_from. ring. Qed.

(** The sum of a list lies between [n] times a lower bound and [n] times
    an upper bound of its elements. *)
Lemma Qsum_bounds (lo hi : Q) (xs : list Q) :
  Forall (fun x => (lo <= x <= hi)%Q) xs ->
  (inject_Z (Z.of_nat (length xs)) * lo <= Qsum xs
   <= inject_Z (Z.of_nat (length xs)) * hi)%Q.
Proof.
  induction 1 as [|x xs [Hlo Hhi] _ IH].
  - change (inject_Z (Z.of_nat (length (@nil Q)))) with 0%Q.
    change (Qsum []) with 0%Q. lra.
  - rewrite Qsum_cons.
    replace (length (x :: xs)) with (S (length xs)) by reflexivity.
    rewrite Nat2Z.inj_succ. unfold Z.succ. rewrite inject_Z_plus.
    change (inject_Z 1) with 1%Q. lra.
Qed.

Lemma length_pos_Q (A : Type) (xs : list A) :
  xs <> [] -> (0 < inject_Z (Z.of_nat (length xs)))%Q.
Proof.
  intros Hne. change 0%Q with (inject_Z 0). rewrite <- Zlt_Qlt.
  destruct xs; [congruence | simpl; lia].
Qed.

(** The mean of a non-empty list lies between any two bounds of its
    elements. *)
Lemma mean_bounds (lo hi : Q) (xs : list Q) :
  xs <> [] ->
  Forall (fun x => (lo <= x <= hi)%Q) xs ->
  (lo <= mean xs <= hi)%Q.
Proof.
  intros Hne Hall. unfold mean.
  pose proof (length_pos_Q Hne) as Hn.
  destruct (Qsum_bounds Hall) as [Hlo Hhi].
  split.
  - apply Qle_shift_div_l; [exact Hn | lra].
  - apply Qle_shift_div_r; [exact Hn | lra].
Qed.

(** ** Sorting *)

Section SortFacts.
Variable A : Type.
Variable lt : A -> A -> bool.

Lemma insert_sorted_perm (x : A) (l : list A) :
  Permutation (insert_sorted lt x l) (x :: l).
Proof.
  induction l as [|y l IH]; simpl.
  - reflexivity.
  - destruct (lt x y); [reflexivity|].
    rewrite IH. apply perm_swap.
Qed.

Lemma sort_from_perm (l acc : list A) :
  Permutation (fold_left (fun acc x => insert_sorted lt x acc) l acc)
    (acc ++ l).
Proof.
  revert acc. induction l as [|x l IH]; intros acc; simpl.
  - now rewrite app_nil_r.
  - rewrite IH, insert_sorted_perm. apply Permutation_middle.
Qed.

Lemma sort_perm (l : list A) : Permutation (sort lt l) l.
Proof. unfold sort. apply (sort_from_perm l []). Qed.

Lemma sort_nil_inv (l : list A) : sort lt l = [] -> l = [].
Proof.
  intros H. apply Permutation_nil. rewrite <- H. apply sort_perm.
Qed.
End SortFacts.

Lemma center_le_trans (a b c : Rectangle) :
  center_le a b -> center_le b c -> center_le a c.
Proof. unfold center_le. apply Qle_trans. Qed.

Lemma insert_center_sorted (x : Rectangle) (l : list Rectangle) :
  StronglySorted center_le l ->
  StronglySorted center_le (insert_sorted center_ltb x l).
Proof.
  induction 1 as [|y l Hl IH Hy]; simpl.
  - repeat constructor.
  - unfold center_ltb at 1. destruct (Qltb _ _) eqn:E.
    + apply Qltb_true in E. constructor.
      * now constructor.
      * constructor; [now apply Qlt_le_weak|].
        eapply Forall_impl; [|exact Hy].
        intros z Hz. eapply center_le_trans; [|exact Hz].
        now apply Qlt_le_weak.
    + apply Qltb_false in E. constructor; [exact IH|].
      apply Forall_forall. intros z Hz.
      apply (Permutation_in _ (insert_sorted_perm center_ltb x l)) in Hz.
      destruct Hz as [<- | Hz]; [exact E|].
      rewrite Forall_forall in Hy. now apply Hy.
Qed.

Lemma sort_by_center_from_sorted (l acc : list Rectangle) :
  StronglySorted center_le acc ->
  StronglySorted center_le
    (fold_left (fun acc x => insert_sorted center_ltb x acc) l acc).
Proof.
  revert acc. induction l as [|x l IH]; intros acc Hacc; simpl.
  - exact Hacc.
  - apply IH, insert_center_sorted, Hacc.
Qed.

Lemma sort_by_center_sorted (l : list Rectangle) :
  StronglySorted center_le (sort_by_center l).
Proof. apply sort_by_center_from_sorted. constructor. Qed.

Lemma sort_by_center_perm (l : list Rectangle) :
  Permutation (sort_by_center l) l.
Proof. apply sort_perm. Qed.

(** Inserting an element that is not below any element already placed puts
    it last. *)
Lemma insert_center_last (x : Rectangle) (l : list Rectangle) :
  Forall (fun y => center_le y x) l ->
  insert_sorted center_ltb x l = l ++ [x].
Proof.
  induction 1 as [|y l Hy _ IH]; simpl.
  - reflexivity.
  - unfold center_ltb at 1.
    destruct (Qltb _ _) eqn:E.
    + apply Qltb_true in E. exfalso. exact (Qlt_not_le _ _ E Hy).
    + now rewrite IH.
Qed.

Lemma sort_by_center_from_fixed (l acc : list Rectangle) :
  StronglySorted center_le (acc ++ l) ->
  fold_left (fun acc x => insert_sorted center_ltb x acc) l acc = acc ++ l.
Proof.
  revert acc. induction l as [|x l IH]; intros acc Hs; simpl.
  - now rewrite app_nil_r.
  - assert (Hx : Forall (fun y => center_le y x) acc).
    { clear IH. induction acc as [|a acc IHacc]; [constructor|].
      simpl in Hs. inversion Hs as [|? ? Hrest Ha]; subst.
      constructor.
      - rewrite Forall_forall in Ha. apply Ha, in_or_app. right. now left.
      - now apply IHacc. }
    rewrite (insert_center_last Hx), IH; rewrite <- app_assoc; [reflexivity|].
    exact Hs.
Qed.

(** Sorting a list that is already in order changes nothing. *)
Lemma sort_by_center_fixed (l : list Rectangle) :
  StronglySorted center_le l -> sort_by_center l = l.
Proof. intros H. apply (sort_by_center_from_fixed l [] H). Qed.

Lemma sort_by_center_idem (l : list Rectangle) :
  sort_by_center (sort_by_center l) = sort_by_center l.
Proof. apply sort_by_center_fixed, sort_by_center_sorted. Qed.

(** ** Line segmenter *)

Lemma concat_snoc (A : Type) (ls : list (list A)) (l : list A) :
  concat (ls ++ [l]) = concat ls ++ l.
Proof. now rewrite concat_app; simpl; rewrite app_nil_r. Qed.

Lemma flush_concat (lines : list line) (current_line : line) :
  concat (flush lines current_line) = concat lines ++ current_line.
Proof.
  destruct current_line; simpl.
  - now rewrite app_nil_r.
  - apply concat_snoc.
Qed.

(** The loop only cuts the sequence it walks: reading the lines one after
    the other gives the rectangles in the order they were visited. *)
Lemma lines_loop_concat (t : Q) (rs : list Rectangle) (lines : list line)
    (cur : line) (prev : Q) :
  concat (fst (lines_loop t rs lines cur prev))
    ++ snd (lines_loop t rs lines cur prev)
  = concat lines ++ cur ++ rs.
Proof.
  revert lines cur prev.
  induction rs as [|r rs IH]; intros lines cur prev; simpl.
  - now rewrite app_nil_r.
  - destruct (Qltb t _); rewrite IH.
    + rewrite concat_snoc. simpl. now rewrite <- app_assoc.
    + now rewrite <- app_assoc.
Qed.

(** A break closes the current line, and the loop never closes an empty
    one once a rectangle has been appended. *)
Lemma lines_loop_nonempty (t : Q) (rs : list Rectangle) (lines : list line)
    (cur : line) (prev : Q) :
  Forall (fun l => l <> []) lines -> cur <> [] ->
  Forall (fun l => l <> []) (fst (lines_loop t rs lines cur prev)) /\
  snd (lines_loop t rs lines cur prev) <> [].
Proof.
  revert lines cur prev.
  induction rs as [|r rs IH]; intros lines cur prev Hlines Hcur; simpl.
  - now split.
  - destruct (Qltb t _); apply IH.
    + apply Forall_app. split; [exact Hlines | now constructor].
    + discriminate.
    + exact Hlines.
    + intros H. now apply app_eq_nil in H as [H _].
Qed.

(** With a threshold that is not negative, the first rectangle, compared to
    its own center, opens no line. *)
Lemma lines_loop_first (t : Q) (first : Rectangle) (rest : list Rectangle) :
  (0 <= t)%Q ->
  lines_loop t (first :: rest) [] [] (center_y first)
  = lines_loop t rest [] [first] (center_y first).
Proof.
  intros Ht. cbn [lines_loop].
  assert (E : Qltb t (Qabs (center_y first - center_y first)) = false).
  { apply Qltb_false.
    assert (Hz : (center_y first - center_y first == 0)%Q) by ring.
    rewrite Hz. exact Ht. }
  now rewrite E.
Qed.

Lemma threshold_nonneg (rectangles : list Rectangle) :
  rectangles <> [] ->
  Forall (fun r => (0 <= height r)%Q) rectangles ->
  (0 <= mean (map height rectangles) * (1 # 2))%Q.
Proof.
  intros Hne Hall.
  assert (Hm : (0 <= mean (map height rectangles))%Q).
  { unfold mean. apply Qle_shift_div_l.
    - apply length_pos_Q. destruct rectangles; [congruence | discriminate].
    - rewrite Qmult_0_l. clear Hne.
      induction Hall as [|r rs Hr _ IH]; [unfold Qsum; simpl; lra|].
      simpl. rewrite Qsum_cons. lra. }
  lra.
Qed.

Lemma separate_to_lines_unfold (rectangles : list Rectangle)
    (first : Rectangle) (rest : list Rectangle) :
  sort_by_center rectangles = first :: rest ->
  separate_to_lines rectangles = (first :: rest, Ok (segment first rest)).
Proof.
  intros Hs. unfold separate_to_lines, segment. rewrite Hs.
  destruct (lines_loop _ _ _ _ _) as [lines cur]. reflexivity.
Qed.

Lemma segment_concat (first : Rectangle) (rest : list Rectangle) :
  concat (segment first rest) = first :: rest.
Proof. unfold segment. now rewrite flush_concat, lines_loop_concat. Qed.

Lemma sort_by_center_cons (rectangles : list Rectangle) :
  rectangles <> [] ->
  exists first rest, sort_by_center rectangles = first :: rest.
Proof.
  intros Hne. destruct (sort_by_center rectangles) as [|first rest] eqn:E.
  - apply sort_nil_inv in E. contradiction.
  - now exists first, rest.
Qed.

(** C5, as the code has it. On a non-empty candidate the segmenter returns
    lines that, read one
    after the other, are the input rectangles, each exactly once, in
    ascending order of vertical center; a candidate of one rectangle (of
    non-negative height) gives the one line that holds it. *)
Theorem separate_to_lines_partition (rectangles : list Rectangle) :
  rectangles <> [] ->
  exists lines,
    snd (separate_to_lines rectangles) = Ok lines /\
    Permutation (concat lines) rectangles /\
    StronglySorted center_le (concat lines) /\
    (forall r, rectangles = [r] -> (0 <= height r)%Q -> lines = [[r]]).
Proof.
  intros Hne.
  destruct (sort_by_center_cons Hne) as [first [rest Hs]].
  rewrite (separate_to_lines_unfold _ Hs).
  exists (segment first rest). split; [reflexivity|].
  rewrite segment_concat, <- Hs.
  split; [|split].
  - apply sort_by_center_perm.
  - apply sort_by_center_sorted.
  - intros r -> Hr.
    change (sort_by_center [r]) with [r] in Hs. injection Hs as <- <-.
    unfold segment. rewrite lines_loop_first; [reflexivity|].
    apply threshold_nonneg; [discriminate | now constructor].
Qed.

(** C10, as the code has it. On a non-empty candidate whose rectangles
    have non-negative
    heights every line the segmenter returns holds at least one
    rectangle. *)
Theorem separate_to_lines_no_empty_line (rectangles : list Rectangle) :
  rectangles <> [] ->
  Forall (fun r => (0 <= height r)%Q) rectangles ->
  exists lines,
    snd (separate_to_lines rectangles) = Ok lines /\
    Forall (fun l => l <> []) lines.
Proof.
  intros Hne Hh.
  destruct (sort_by_center_cons Hne) as [first [rest Hs]].
  rewrite (separate_to_lines_unfold _ Hs).
  exists (segment first rest). split; [reflexivity|].
  assert (Ht : (0 <= mean (map height (first :: rest)) * (1 # 2))%Q).
  { apply threshold_nonneg; [discriminate|].
    rewrite <- Hs. apply Forall_forall. intros r Hin.
    rewrite Forall_forall in Hh. apply Hh.
    now apply (Permutation_in _ (sort_by_center_perm rectangles)). }
  unfold segment. rewrite (lines_loop_first _ _ Ht).
  destruct (@lines_loop_nonempty (mean (map height (first :: rest)) * (1 # 2))
              rest [] [first] (center_y first)) as [Hls Hcur].
  - constructor.
  - discriminate.
  - destruct (snd (lines_loop _ rest [] [first] (center_y first))) eqn:E;
      [contradiction|].
    simpl. apply Forall_app. split; [exact Hls|].
    constructor; [discriminate | constructor].
Qed.

(** ** Cross-source line grouper *)

Lemma covers_spec (l : line) (c : Q) :
  covers l c = true <-> span_covers l c.
Proof.
  unfold span_covers. destruct l as [|first rest]; simpl.
  - split; [discriminate | intros (f & r & H & _); discriminate].
  - rewrite andb_true_iff, !Qgeb_true. split.
    + intros [Hb Ht]. exists first, rest. auto.
    + intros (f & r & H & Ht & Hb). injection H as <- <-. auto.
Qed.

Lemma max_from_ge (xs : list Q) (x : Q) :
  (x <= max_from x xs)%Q /\ Forall (fun y => (y <= max_from x xs)%Q) xs.
Proof.
  unfold max_from. revert x. induction xs as [|y xs IH]; intros x; simpl.
  - split; [apply Qle_refl | constructor].
  - destruct (IH (if Qltb x y then y else x)) as [H1 H2].
    destruct (Qltb x y) eqn:E.
    + apply Qltb_true in E. split; [|constructor; assumption].
      eapply Qle_trans; [apply Qlt_le_weak, E | exact H1].
    + apply Qltb_false in E. split; [exact H1|].
      constructor; [|exact H2]. eapply Qle_trans; [exact E | exact H1].
Qed.

Lemma min_from_le (xs : list Q) (x : Q) :
  (min_from x xs <= x)%Q /\ Forall (fun y => (min_from x xs <= y)%Q) xs.
Proof.
  unfold min_from. revert x. induction xs as [|y xs IH]; intros x; simpl.
  - split; [apply Qle_refl | constructor].
  - destruct (IH (if Qltb y x then y else x)) as [H1 H2].
    destruct (Qltb y x) eqn:E.
    + apply Qltb_true in E. split; [|constructor; assumption].
      eapply Qle_trans; [exact H1 | apply Qlt_le_weak, E].
    + apply Qltb_false in E. split; [exact H1|].
      constructor; [|exact H2]. eapply Qle_trans; [exact H1 | exact E].
Qed.

Lemma line_bottom_ge (first : Rectangle) (rest : line) (r : Rectangle) :
  In r (first :: rest) -> (end_y r <= line_bottom first rest)%Q.
Proof.
  unfold line_bottom.
  destruct (max_from_ge (map end_y rest) (end_y first)) as [H1 H2].
  intros [<- | Hin]; [exact H1|].
  rewrite Forall_forall in H2. apply H2, in_map, Hin.
Qed.

Lemma line_top_le (first : Rectangle) (rest : line) (r : Rectangle) :
  In r (first :: rest) -> (line_top first rest <= start_y r)%Q.
Proof.
  unfold line_top.
  destruct (min_from_le (map start_y rest) (start_y first)) as [H1 H2].
  intros [<- | Hin]; [exact H1|].
  rewrite Forall_forall in H2. apply H2, in_map, Hin.
Qed.

(** The mean center of a line of centered rectangles lies in the line's
    own span. *)
Lemma own_center_covered (l : line) :
  l <> [] -> Forall centered l -> covers l (line_center l) = true.
Proof.
  intros Hne Hc. apply covers_spec.
  destruct l as [|first rest]; [congruence|].
  exists first, rest. split; [reflexivity|].
  unfold line_center. apply mean_bounds; [discriminate|].
  apply Forall_forall. intros c Hin.
  apply in_map_iff in Hin as [r [<- Hin]].
  rewrite Forall_forall in Hc. destruct (Hc r Hin) as [Hs He].
  pose proof (@line_bottom_ge first rest r Hin).
  pose proof (@line_top_le first rest r Hin).
  split; eapply Qle_trans; eassumption.
Qed.

Lemma covers_Qeq (l : line) (c c' : Q) :
  (c == c')%Q -> covers l c = covers l c'.
Proof.
  intros E. destruct l as [|first rest]; [reflexivity|]. simpl.
  unfold Qgeb.
  assert (H1 : forall a, Qle_bool c a = Qle_bool c' a).
  { intros a. destruct (Qle_bool c a) eqn:E1, (Qle_bool c' a) eqn:E2;
      try reflexivity.
    - apply Qle_bool_iff in E1. rewrite E in E1.
      apply Qle_bool_iff in E1. congruence.
    - apply Qle_bool_iff in E2. rewrite <- E in E2.
      apply Qle_bool_iff in E2. congruence. }
  assert (H2 : forall a, Qle_bool a c = Qle_bool a c').
  { intros a. destruct (Qle_bool a c) eqn:E1, (Qle_bool a c') eqn:E2;
      try reflexivity.
    - apply Qle_bool_iff in E1. rewrite E in E1.
      apply Qle_bool_iff in E1. congruence.
    - apply Qle_bool_iff in E2. rewrite <- E in E2.
      apply Qle_bool_iff in E2. congruence. }
  now rewrite H1, H2.
Qed.

Lemma join_groups_eq (first : Rectangle) (rest : line)
    (groups : groups_dict) (grouped : bool) :
  join_groups (line_bottom first rest) (line_top first rest)
    (first :: rest) groups grouped
  = (joined (first :: rest) groups,
     grouped || existsb (covers (first :: rest)) (map fst groups)).
Proof.
  revert grouped. induction groups as [|[k members] groups IH];
    intros grouped; simpl.
  - now rewrite orb_false_r.
  - rewrite IH. now rewrite orb_assoc.
Qed.

(** Setting a key that is [==] to no key of the dict appends the entry. *)
Lemma dict_set_new (groups : groups_dict) (key : Q) (value : list line) :
  Forall (fun g => Qeq_bool (fst g) key = false) groups ->
  dict_set groups key value = groups ++ [(key, value)].
Proof.
  induction 1 as [|[k v] groups Hk _ IH]; simpl.
  - reflexivity.
  - simpl in Hk. now rewrite Hk, IH.
Qed.

Lemma joined_none (l : line) (groups : groups_dict) :
  existsb (covers l) (map fst groups) = false -> joined l groups = groups.
Proof.
  unfold joined. induction groups as [|[k v] groups IH]; simpl.
  - reflexivity.
  - intros H. apply orb_false_iff in H as [Hk Hrest].
    now rewrite Hk, IH.
Qed.

(** What one line does to the groups. *)
Lemma add_line_step (groups : groups_dict) (l : line) :
  l <> [] -> Forall centered l ->
  add_line groups l
  = Ok (if existsb (covers l) (map fst groups)
        then joined l groups
        else groups ++ [(line_center l, [l])]).
Proof.
  intros Hne Hc. pose proof (own_center_covered Hne Hc) as Hown.
  destruct l as [|first rest]; [congruence|].
  unfold add_line. rewrite join_groups_eq. simpl orb.
  destruct (existsb _ _) eqn:E; simpl negb; cbv iota; [reflexivity|].
  rewrite (joined_none _ _ E). f_equal. apply dict_set_new.
  apply Forall_forall. intros [k v] Hin. simpl.
  destruct (Qeq_bool k (line_center (first :: rest))) eqn:Ek;
    [|reflexivity].
  apply Qeq_bool_iff in Ek.
  assert (Hk : covers (first :: rest) k = true).
  { now rewrite (covers_Qeq (first :: rest) Ek). }
  assert (Hex : existsb (covers (first :: rest)) (map fst groups) = true).
  { apply existsb_exists. exists k. split; [|exact Hk].
    apply in_map_iff. now exists (k, v). }
  congruence.
Qed.

Lemma add_line_ok (groups : groups_dict) (l : line) :
  l <> [] -> Forall centered l -> Forall group_ok groups ->
  exists groups',
    add_line groups l = Ok groups' /\ Forall group_ok groups'.
Proof.
  intros Hne Hc Hok. rewrite (add_line_step groups Hne Hc).
  eexists. split; [reflexivity|].
  destruct (existsb _ _) eqn:E.
  - unfold joined. apply Forall_forall. intros g Hin.
    apply in_map_iff in Hin as [[k members] [<- Hin]]. simpl.
    rewrite Forall_forall in Hok.
    destruct (Hok _ Hin) as [Hall (founder & others & Hm & Hk)].
    simpl in *. destruct (covers l k) eqn:Ek.
    + split; simpl.
      * apply Forall_app. split; [exact Hall|].
        constructor; [now apply covers_spec | constructor].
      * exists founder, (others ++ [l]). now rewrite Hm.
    + split; [exact Hall|]. now exists founder, others.
  - apply Forall_app. split; [exact Hok|].
    constructor; [|constructor]. split; simpl.
    + constructor; [|constructor].
      apply covers_spec, own_center_covered; assumption.
    + now exists l, [].
Qed.

Lemma add_lines_ok (lines : list line) (groups : groups_dict) :
  Forall line_ok lines -> Forall group_ok groups ->
  exists groups',
    add_lines groups lines = Ok groups' /\ Forall group_ok groups'.
Proof.
  intros Hl. revert groups.
  induction Hl as [|l lines [Hne Hc] _ IH]; intros groups Hok; simpl.
  - now exists groups.
  - destruct (add_line_ok Hne Hc Hok) as [g1 [E1 Hok1]].
    rewrite E1. simpl. now apply IH.
Qed.

Lemma add_candidates_ok (candidate_lines : list (list line))
    (groups : groups_dict) :
  Forall (Forall line_ok) candidate_lines -> Forall group_ok groups ->
  exists groups',
    add_candidates groups candidate_lines = Ok groups' /\
    Forall group_ok groups'.
Proof.
  intros Hl. revert groups.
  induction Hl as [|lines rest Hlines _ IH]; intros groups Hok; simpl.
  - now exists groups.
  - destruct (add_lines_ok Hlines Hok) as [g1 [E1 Hok1]].
    rewrite E1. simpl. now apply IH.
Qed.





(** ** Character voting *)

Lemma max_entry_from_cons (best kv : ascii * nat)
    (rest : list (ascii * nat)) :
  max_entry_from best (kv :: rest)
  = if snd best <? snd (max_entry_from kv rest)
    then max_entry_from kv rest
    else best.
Proof.
  revert best kv. induction rest as [|x rest IH]; intros best kv.
  - reflexivity.
  - change (max_entry_from best (kv :: x :: rest))
      with (max_entry_from (if snd best <? snd kv then kv else best)
              (x :: rest)).
    rewrite (IH _ x), (IH kv x).
    destruct (snd best <? snd kv) eqn:E1;
      destruct (snd kv <? snd (max_entry_from x rest)) eqn:E2;
      destruct (snd best <? snd (max_entry_from x rest)) eqn:E3;
      try reflexivity;
      rewrite ?Nat.ltb_lt, ?Nat.ltb_ge in *; try lia;
      try (rewrite E1; reflexivity).
    all: try (apply Nat.ltb_lt in E1; rewrite E1; reflexivity).
    all: try (apply Nat.ltb_ge in E1; rewrite E1; reflexivity).
Qed.

(** An entry at the head of the dict collects every later occurrence of
    its key; the rest of the dict sees the other characters only. *)
Lemma count_from_head (col : list ascii) (k : ascii) (v : nat)
    (acc : list (ascii * nat)) :
  fold_left (fun count char => dict_incr char count) col ((k, v) :: acc)
  = (k, v + occurrences col k)
      :: fold_left (fun count char => dict_incr char count)
           (others_than k col) acc.
Proof.
  unfold occurrences.
  revert v acc. induction col as [|x col IH]; intros v acc; simpl.
  - now rewrite Nat.add_0_r.
  - destruct (Ascii.eqb k x) eqn:E; simpl.
    + apply Ascii.eqb_eq in E. subst x. rewrite IH.
      destruct (ascii_dec k k) as [_|Hn]; [|congruence].
      f_equal. f_equal. lia.
    + rewrite IH. apply Ascii.eqb_neq in E.
      destruct (ascii_dec x k) as [He|_]; [congruence|]. reflexivity.
Qed.

Lemma count_chars_cons (c : ascii) (col : list ascii) :
  count_chars (c :: col)
  = (c, 1 + occurrences col c) :: count_chars (others_than c col).
Proof. unfold count_chars. simpl. apply count_from_head. Qed.

Lemma occurrences_cons (c d : ascii) (col : list ascii) :
  occurrences (c :: col) d
  = (if Ascii.eqb c d then 1 else 0) + occurrences col d.
Proof.
  unfold occurrences. simpl.
  destruct (ascii_dec c d) as [->|Hn].
  - now rewrite Ascii.eqb_refl.
  - apply Ascii.eqb_neq in Hn. now rewrite Hn.
Qed.

Lemma occurrences_others (c d : ascii) (col : list ascii) :
  c <> d -> occurrences (others_than c col) d = occurrences col d.
Proof.
  intros Hcd. unfold others_than.
  induction col as [|x col IH]; cbn [filter].
  - reflexivity.
  - destruct (Ascii.eqb c x) eqn:E; cbn [negb].
    + apply Ascii.eqb_eq in E. subst x. rewrite occurrences_cons.
      apply Ascii.eqb_neq in Hcd. now rewrite Hcd.
    + rewrite !occurrences_cons. now rewrite IH.
Qed.

Lemma occurrences_In (col : list ascii) (d : ascii) :
  In d col <-> 1 <= occurrences col d.
Proof. unfold occurrences. rewrite (count_occ_In ascii_dec). lia. Qed.

Lemma others_than_length (c : ascii) (col : list ascii) :
  length (others_than c col) <= length col.
Proof. apply filter_length_le. Qed.

Lemma others_than_In (c d : ascii) (col : list ascii) :
  In d (others_than c col) -> c <> d /\ In d col.
Proof.
  unfold others_than. rewrite filter_In. intros [Hin Hn].
  apply negb_true_iff, Ascii.eqb_neq in Hn. now split.
Qed.

(** A first occurrence in the filtered column is a first occurrence in the
    column, after characters that were filtered out or came before it. *)
Lemma others_than_split (c w : ascii) (col before after : list ascii) :
  others_than c col = before ++ w :: after ->
  exists before' after',
    col = before' ++ w :: after' /\
    forall d, In d before' -> d = c \/ In d before.
Proof.
  revert before. induction col as [|x col IH]; intros before; simpl.
  - intros H. destruct before; discriminate.
  - destruct (Ascii.eqb c x) eqn:E; simpl.
    + apply Ascii.eqb_eq in E. subst x. intros H.
      destruct (IH _ H) as (b' & a' & -> & Hb).
      exists (c :: b'), a'. split; [reflexivity|].
      intros d [<- | Hd]; [now left | now apply Hb].
    + intros H. destruct before as [|y before]; simpl in H.
      * injection H as -> _. exists [], col. split; [reflexivity|].
        intros d [].
      * injection H as -> H.
        destruct (IH _ H) as (b' & a' & -> & Hb).
        exists (y :: b'), a'. split; [reflexivity|].
        intros d [<- | Hd]; [right; now left|].
        destruct (Hb d Hd) as [-> | Hin]; [now left | right; now right].
Qed.

Lemma winner_cons (c : ascii) (col : list ascii) :
  winner (c :: col)
  = match others_than c col with
    | [] => (c, 1 + occurrences col c)
    | _ :: _ =>
        if 1 + occurrences col c <? snd (winner (others_than c col))
        then winner (others_than c col)
        else (c, 1 + occurrences col c)
    end.
Proof.
  unfold winner at 1. rewrite count_chars_cons.
  destruct (others_than c col) as [|x rest] eqn:E.
  - reflexivity.
  - unfold winner. rewrite count_chars_cons.
    now rewrite max_entry_from_cons.
Qed.

Lemma winner_first_most_common_aux (n : nat) (col : list ascii) :
  length col <= n -> col <> [] ->
  snd (winner col) = occurrences col (fst (winner col)) /\
  first_most_common col (fst (winner col)).
Proof.
  revert col. induction n as [|n IH]; intros col Hlen Hne.
  - destruct col; [congruence | simpl in Hlen; lia].
  - destruct col as [|c col]; [congruence|]. clear Hne.
    rewrite winner_cons.
    assert (Hc : occurrences (c :: col) c = 1 + occurrences col c).
    { now rewrite occurrences_cons, Ascii.eqb_refl. }
    assert (Hd : forall d, c <> d ->
                 occurrences (c :: col) d
                 = occurrences (others_than c col) d).
    { intros d Hn. rewrite occurrences_cons, occurrences_others by exact Hn.
      apply Ascii.eqb_neq in Hn. now rewrite Hn. }
    assert (Hhead : forall bound,
              (forall d, c <> d ->
                 occurrences (others_than c col) d <= bound) ->
              bound <= 1 + occurrences col c ->
              snd (c, 1 + occurrences col c)
              = occurrences (c :: col) (fst (c, 1 + occurrences col c)) /\
              first_most_common (c :: col) (fst (c, 1 + occurrences col c))).
    { intros bound Hb Hle. simpl fst. simpl snd. split; [now rewrite Hc|].
      split.
      - intros d. destruct (ascii_dec c d) as [<-|Hn]; [lia|].
        rewrite (Hd d Hn), Hc. specialize (Hb d Hn). lia.
      - exists [], col. split; [reflexivity|]. split; [intros []|].
        intros d []. }
    destruct (others_than c col) as [|x rest] eqn:E.
    + apply (Hhead 0); [|lia]. intros d _. reflexivity.
    + rewrite <- E in *.
      assert (Hlen' : length (others_than c col) <= n).
      { pose proof (others_than_length c col). simpl in Hlen. lia. }
      assert (Hne' : others_than c col <> []) by (rewrite E; discriminate).
      destruct (IH _ Hlen' Hne') as [Hv [Hmax (b & a & Hsplit & Hnb & Hb)]].
      set (w := winner (others_than c col)) in *.
      assert (Hw : c <> fst w /\ In (fst w) col).
      { apply others_than_In. rewrite Hsplit. apply in_or_app.
        right. now left. }
      destruct Hw as [Hcw _].
      destruct (1 + occurrences col c <? snd w) eqn:Ecmp.
      * apply Nat.ltb_lt in Ecmp. split; [now rewrite Hd|].
        split.
        -- intros d. rewrite (Hd (fst w) Hcw).
           destruct (ascii_dec c d) as [<-|Hn]; [lia|].
           rewrite (Hd d Hn). apply Hmax.
        -- destruct (@others_than_split _ _ _ _ _ Hsplit)
             as (b' & a' & Hcol & Hb').
           exists (c :: b'), a'. split; [now rewrite Hcol|]. split.
           ++ intros [Heq | Hin]; [congruence|].
              destruct (Hb' _ Hin) as [Heq | Hin']; [congruence|].
              contradiction.
           ++ intros d Hin. rewrite (Hd (fst w) Hcw).
              destruct (ascii_dec c d) as [<-|Hn]; [lia|].
              rewrite (Hd d Hn). apply Hb.
              destruct Hin as [Heq | Hin]; [congruence|].
              destruct (Hb' _ Hin) as [Heq | Hin']; [congruence|].
              exact Hin'.
      * apply Nat.ltb_ge in Ecmp.
        apply (Hhead (snd w)); [|exact Ecmp].
        intros d _. rewrite Hv. apply Hmax.
Qed.

(** The voted character of a non-empty column. *)
Lemma winner_first_most_common (col : list ascii) :
  col <> [] ->
  max_key (count_chars col) = Ok (fst (winner col)) /\
  first_most_common col (fst (winner col)).
Proof.
  intros Hne. split.
  - unfold winner. destruct col as [|c col]; [congruence|].
    rewrite count_chars_cons. reflexivity.
  - now apply (@winner_first_most_common_aux (length col) col).
Qed.

Lemma fold_left_max (xs : list nat) (a : nat) :
  fold_left Nat.max xs a = Nat.max a (list_max xs).
Proof.
  revert a. induction xs as [|x xs IH]; intros a; simpl.
  - lia.
  - rewrite IH. lia.
Qed.

Lemma max_length_longest (strings : list string) :
  strings <> [] -> max_length strings = Ok (longest strings).
Proof.
  destruct strings as [|s rest]; [congruence|]. intros _.
  unfold max_length, longest. simpl. now rewrite fold_left_max.
Qed.

Lemma length_list_ascii_of_string (s : string) :
  length (list_ascii_of_string s) = String.length s.
Proof. induction s; simpl; congruence. Qed.

Lemma longest_ge (strings : list string) (s : string) :
  In s strings -> String.length s <= longest strings.
Proof.
  intros Hin. unfold longest.
  pose proof (proj1 (list_max_le (map String.length strings) _)
                (Nat.le_refl _)) as H.
  rewrite Forall_forall in H. apply H, in_map, Hin.
Qed.

Lemma ljust_length (s : list ascii) (n : nat) :
  length s <= n -> length (ljust s n) = n.
Proof.
  intros H. unfold ljust. rewrite length_app, repeat_length. lia.
Qed.

Lemma padded_length (strings : list string) :
  Forall (fun row => length row = longest strings)
    (padded strings (longest strings)).
Proof.
  apply Forall_forall. intros row Hin.
  apply in_map_iff in Hin as [s [<- Hin]].
  apply ljust_length. rewrite length_list_ascii_of_string.
  now apply longest_ge.
Qed.

Lemma fold_left_min_same (xs : list nat) (n : nat) :
  Forall (fun x => x = n) xs -> fold_left Nat.min xs n = n.
Proof.
  induction 1 as [|x xs -> _ IH]; simpl.
  - reflexivity.
  - now rewrite Nat.min_id.
Qed.

(** Rows of one length are zipped into their columns. *)
Lemma zip_star_columns (rows : list (list ascii)) (n : nat) :
  rows <> [] -> Forall (fun row => length row = n) rows ->
  zip_star rows = map (fun i => chars_at i rows) (seq 0 n).
Proof.
  intros Hne Hall. destruct rows as [|r rs]; [congruence|].
  inversion Hall as [|? ? Hr Hrs]; subst. unfold zip_star.
  rewrite fold_left_min_same; [reflexivity|].
  apply Forall_forall. intros x Hin.
  apply in_map_iff in Hin as [row [<- Hin]].
  rewrite Forall_forall in Hrs. now apply Hrs.
Qed.

Lemma vote_columns (cols : list (list ascii)) :
  Forall (fun col => col <> []) cols ->
  for_append (fun chars => max_key (count_chars chars)) cols []
  = Ok (map (fun col => fst (winner col)) cols).
Proof.
  intros Hall. apply for_append_Ok.
  induction Hall as [|col cols Hcol _ IH]; simpl; constructor.
  - now apply winner_first_most_common.
  - exact IH.
Qed.

(** The vote, column by column. *)
Lemma majority_vote_eq (strings : list string) :
  strings <> [] ->
  majority_vote strings
  = Ok (string_of_list_ascii
          (map (fun i =>
                  fst (winner
                         (chars_at i (padded strings (longest strings)))))
             (seq 0 (longest strings)))).
Proof.
  intros Hne.
  assert (Hrows : padded strings (longest strings) <> []).
  { unfold padded. destruct strings; [congruence | discriminate]. }
  unfold majority_vote. rewrite (max_length_longest Hne). simpl bind.
  fold (padded strings (longest strings)).
  rewrite (zip_star_columns Hrows (padded_length strings)).
  rewrite vote_columns; [now rewrite map_map|].
  apply Forall_forall. intros col Hin.
  apply in_map_iff in Hin as [i [<- _]].
  unfold chars_at. destruct (padded strings (longest strings));
    [congruence | discriminate].
Qed.

(** C3. On a non-empty list the vote pads every string on the right with
    spaces to the longest length and returns, position by position, a
    character that no character of the column outnumbers and that every
    character met earlier in the column stays strictly below (the first
    seen among the most frequent); it elects "cat" from "cat", "cot",
    "cat". *)
Theorem majority_vote_first_most_common (strings : list string) :
  strings <> [] ->
  let n := longest strings in
  let rows := padded strings n in
  exists voted,
    majority_vote strings = Ok (string_of_list_ascii voted) /\
    length voted = n /\
    Forall2
      (fun s row =>
         row = list_ascii_of_string s ++ repeat space (n - String.length s) /\
         length row = n)
      strings rows /\
    (forall i, i < n ->
       first_most_common (chars_at i rows) (nth i voted space)) /\
    majority_vote ["cat"; "cot"; "cat"] = Ok "cat".
Proof.
  intros Hne n rows.
  assert (Hrows : rows <> []).
  { unfold rows, padded. destruct strings; [congruence | discriminate]. }
  assert (Hcols : forall i, chars_at i rows <> []).
  { intros i. unfold chars_at. destruct rows; [congruence | discriminate]. }
  exists (map (fun i => fst (winner (chars_at i rows))) (seq 0 n)).
  split; [|split; [|split; [|split]]].
  - now apply majority_vote_eq.
  - now rewrite length_map, length_seq.
  - unfold rows, padded. clear Hrows Hcols.
    assert (Hsub : forall s, In s strings -> String.length s <= n).
    { intros s. apply longest_ge. }
    clearbody n. clear rows Hne.
    induction strings as [|s rest IH]; simpl; constructor.
    + split.
      * unfold ljust. now rewrite length_list_ascii_of_string.
      * apply ljust_length. rewrite length_list_ascii_of_string.
        apply Hsub. now left.
    + apply IH. intros s' Hin. apply Hsub. now right.
  - intros i Hi.
    rewrite (nth_indep _ space (fst (winner (chars_at 0 rows))))
      by (now rewrite length_map, length_seq).
    rewrite (map_nth (fun x => fst (winner (chars_at x rows))) (seq 0 n) 0 i).
    rewrite seq_nth by exact Hi. simpl.
    apply winner_first_most_common, Hcols.
  - reflexivity.
Qed.

(** ** Alignment *)

Lemma column_score_le (prev : gap_state) (c : column) :
  (column_score prev c <= 1)%Z /\
  (next_state c <> NoGap -> column_score prev c <= -1)%Z.
Proof.
  destruct c as [a b|a|b]; simpl.
  - split; [destruct (Ascii.eqb a b); lia | congruence].
  - destruct prev; split; lia.
  - destruct prev; split; lia.
Qed.

(** A pair of characters earns at most one point and every gap column
    costs at least one. *)
Lemma score_gaps (cols : list column) (prev : gap_state) :
  (2 * score prev cols + 3 * Z.of_nat (gaps cols)
   <= Z.of_nat (length (seqA cols)) + Z.of_nat (length (seqB cols)))%Z.
Proof.
  revert prev. induction cols as [|c cols IH]; intros prev.
  - simpl. lia.
  - specialize (IH (next_state c)).
    destruct (column_score_le prev c) as [H1 H2].
    destruct c as [a b|a|b]; cbn [score gaps seqA seqB length] in *.
    + lia.
    + assert (column_score prev (GapInB a) <= -1)%Z
        by (apply H2; discriminate). lia.
    + assert (column_score prev (GapInA b) <= -1)%Z
        by (apply H2; discriminate). lia.
Qed.

Lemma no_gaps_diagonal (cols : list column) :
  gaps cols = 0 -> seqA cols = seqB cols -> cols = diagonal (seqA cols).
Proof.
  induction cols as [|c cols IH]; [reflexivity|].
  destruct c as [a b|a|b]; simpl; try discriminate.
  intros Hg Hs. injection Hs as -> Hs. now rewrite <- IH.
Qed.

Lemma diagonal_aligns (s : list ascii) :
  seqA (diagonal s) = s /\ seqB (diagonal s) = s /\
  gappedA (diagonal s) = s /\
  score NoGap (diagonal s) = Z.of_nat (length s).
Proof.
  induction s as [|c s (IH1 & IH2 & IH3 & IH4)]; simpl.
  - repeat split.
  - rewrite IH1, IH2. unfold gappedA in *. simpl. rewrite IH3.
    repeat split. rewrite Ascii.eqb_refl.
    change (map (fun c0 => Both c0 c0) s) with (diagonal s).
    rewrite IH4. lia.
Qed.

(** The only best alignment of a sequence with itself is the diagonal. *)
Lemma best_alignment_self (cols : list column) (s : string) :
  best_alignment cols s s -> gappedA cols = list_ascii_of_string s.
Proof.
  intros [[HA HB] Hbest].
  destruct (diagonal_aligns (list_ascii_of_string s)) as (D1 & D2 & D3 & D4).
  assert (Hd : (score NoGap (diagonal (list_ascii_of_string s))
                <= score NoGap cols)%Z).
  { apply Hbest. now split. }
  pose proof (score_gaps cols NoGap) as Hg. rewrite HA, HB in Hg.
  assert (Hz : gaps cols = 0) by lia.
  rewrite (no_gaps_diagonal cols Hz) by congruence.
  now rewrite HA.
Qed.

Section AlignerContract.
Variable globalxs : string -> string -> list (string * string).
Hypothesis globalxs_optimal : optimal_aligner globalxs.

Lemma align_pairwise_self (s : string) :
  s <> EmptyString -> align_pairwise globalxs s s = Ok s.
Proof.
  intros Hs. destruct (globalxs_optimal Hs Hs) as (cols & rest & E & Hbest).
  unfold align_pairwise. rewrite E. simpl.
  rewrite (best_alignment_self Hbest).
  now rewrite string_of_list_ascii_of_string.
Qed.
End AlignerContract.

(** *** The reference aligner meets the contract *)

Lemma better_fst (x y : Z * list column) :
  fst (better x y) = Z.max (fst x) (fst y).
Proof. unfold better. destruct (Z.ltb_spec (fst x) (fst y)); lia. Qed.

Lemma better_cases (x y : Z * list column) :
  better x y = x \/ better x y = y.
Proof. unfold better. destruct (fst x <? fst y)%Z; auto. Qed.

Lemma best_nil_l (prev : gap_state) (b : list ascii) :
  best prev [] b = only_gaps_in_A prev b.
Proof. reflexivity. Qed.

Lemma best_nil_r (prev : gap_state) (a : list ascii) :
  best prev a [] = only_gaps_in_B prev a.
Proof. destruct a; reflexivity. Qed.

Lemma best_cons_cons (prev : gap_state) (x y : ascii) (a b : list ascii) :
  best prev (x :: a) (y :: b)
  = better
      (better (extend prev (Both x y) (best NoGap a b))
         (extend prev (GapInB x) (best OpenInB a (y :: b))))
      (extend prev (GapInA y) (best OpenInA (x :: a) b)).
Proof. reflexivity. Qed.

Lemma only_gaps_in_A_scored (b : list ascii) (prev : gap_state) :
  scored prev [] b (only_gaps_in_A prev b).
Proof.
  revert prev. induction b as [|y b IH]; intros prev.
  - repeat split.
  - destruct (IH OpenInA) as (H1 & H2 & H3). unfold scored. simpl.
    rewrite H1, H2, H3. repeat split.
Qed.

Lemma only_gaps_in_B_scored (a : list ascii) (prev : gap_state) :
  scored prev a [] (only_gaps_in_B prev a).
Proof.
  revert prev. induction a as [|x a IH]; intros prev.
  - repeat split.
  - destruct (IH OpenInB) as (H1 & H2 & H3). unfold scored. simpl.
    rewrite H1, H2, H3. repeat split.
Qed.

Lemma best_scored (a b : list ascii) (prev : gap_state) :
  scored prev a b (best prev a b).
Proof.
  revert b prev. induction a as [|x a IHa]; intros b prev.
  - apply only_gaps_in_A_scored.
  - revert prev. induction b as [|y b IHb]; intros prev.
    + rewrite best_nil_r. apply only_gaps_in_B_scored.
    + rewrite best_cons_cons.
      destruct (IHa b NoGap) as (A1 & A2 & A3).
      destruct (IHa (y :: b) OpenInB) as (B1 & B2 & B3).
      destruct (IHb OpenInA) as (C1 & C2 & C3).
      match goal with
      | |- scored _ _ _ (better (better ?p ?q) ?r) =>
          destruct (better_cases (better p q) r) as [-> | ->];
          [destruct (better_cases p q) as [-> | ->]|]
      end; unfold scored, extend; cbn [fst snd seqA seqB score next_state];
        rewrite ?A1, ?A2, ?A3, ?B1, ?B2, ?B3, ?C1, ?C2, ?C3;
        repeat split.
Qed.

Lemma best_optimal (cols : list column) (prev : gap_state) :
  (score prev cols <= fst (best prev (seqA cols) (seqB cols)))%Z.
Proof.
  revert prev. induction cols as [|c cols IH]; intros prev.
  - simpl. lia.
  - specialize (IH (next_state c)).
    destruct c as [x y|x|y]; cbn [seqA seqB score next_state] in *.
    + rewrite best_cons_cons, !better_fst. unfold extend. cbn [fst]. lia.
    + destruct (seqB cols) as [|y b].
      * rewrite best_nil_r in *. cbn [only_gaps_in_B]. unfold extend.
        cbn [fst]. lia.
      * rewrite best_cons_cons, !better_fst. unfold extend. cbn [fst]. lia.
    + destruct (seqA cols) as [|x a].
      * rewrite best_nil_l in *. cbn [only_gaps_in_A]. unfold extend.
        cbn [fst]. lia.
      * rewrite best_cons_cons, !better_fst. unfold extend. cbn [fst]. lia.
Qed.

Lemma reference_globalxs_optimal : optimal_aligner reference_globalxs.
Proof.
  intros a b Ha Hb.
  exists (snd (best NoGap (list_ascii_of_string a) (list_ascii_of_string b))),
    [].
  split.
  - unfold reference_globalxs. destruct a; [congruence|].
    destruct b; [congruence|]. reflexivity.
  - destruct (best_scored (list_ascii_of_string a) (list_ascii_of_string b)
                NoGap) as (H1 & H2 & H3).
    split; [now split|].
    intros cols' [HA HB]. rewrite <- H3, <- HA, <- HB. apply best_optimal.
Qed.

(** ** Consensus engine *)

Lemma map_nth_seq (A : Type) (l : list A) (d : A) :
  map (fun i => nth i l d) (seq 0 (length l)) = l.
Proof.
  induction l as [|x l IH]; [reflexivity|]. simpl.
  rewrite <- seq_shift, map_map. simpl. now rewrite IH.
Qed.

Lemma longest_repeat (s : string) (k : nat) :
  longest (repeat s (S k)) = String.length s.
Proof.
  unfold longest. induction k as [|k IH]; simpl in *; lia.
Qed.

Lemma padded_repeat (s : string) (k : nat) :
  padded (repeat s k) (String.length s)
  = repeat (list_ascii_of_string s) k.
Proof.
  unfold padded. induction k as [|k IH]; [reflexivity|]. simpl.
  rewrite IH. f_equal. unfold ljust.
  rewrite length_list_ascii_of_string, Nat.sub_diag. apply app_nil_r.
Qed.

Lemma chars_at_repeat (i : nat) (row : list ascii) (k : nat) :
  chars_at i (repeat row k) = repeat (nth i row space) k.
Proof.
  unfold chars_at. induction k as [|k IH]; simpl; congruence.
Qed.

Lemma winner_repeat (c : ascii) (k : nat) :
  fst (winner (repeat c (S k))) = c.
Proof.
  destruct (@winner_first_most_common (repeat c (S k)))
    as [_ [_ (before & after & Hsplit & _)]]; [discriminate|].
  set (w := fst (winner (repeat c (S k)))) in *. clearbody w.
  apply (@repeat_spec _ (S k) c). rewrite Hsplit.
  apply in_or_app. right. now left.
Qed.

(** Equal strings elect themselves. *)
Lemma majority_vote_repeat (s : string) (k : nat) :
  majority_vote (repeat s (S k)) = Ok s.
Proof.
  rewrite majority_vote_eq by discriminate.
  rewrite longest_repeat, padded_repeat. f_equal.
  transitivity (string_of_list_ascii (list_ascii_of_string s));
    [|apply string_of_list_ascii_of_string].
  f_equal.
  transitivity (map (fun i => nth i (list_ascii_of_string s) space)
                  (seq 0 (length (list_ascii_of_string s))));
    [|apply map_nth_seq].
  rewrite length_list_ascii_of_string.
  apply map_ext. intros i. now rewrite chars_at_repeat, winner_repeat.
Qed.

Section Consensus.
Variable globalxs : string -> string -> list (string * string).

Lemma identify_words_one (s : string) :
  identify_words globalxs [s] = Ok (Some s).
Proof. reflexivity. Qed.

Hypothesis globalxs_optimal : optimal_aligner globalxs.

Lemma identify_words_two (s : string) :
  s <> EmptyString -> identify_words globalxs [s; s] = Ok (Some s).
Proof.
  intros Hs. unfold identify_words.
  pose proof (majority_vote_repeat s 1) as Hvote. cbn [repeat] in Hvote.
  rewrite (align_pairwise_self globalxs_optimal Hs). cbn [bind].
  now rewrite Hvote.
Qed.

Lemma identify_words_three (s : string) :
  s <> EmptyString -> identify_words globalxs [s; s; s] = Ok (Some s).
Proof.
  intros Hs. unfold identify_words. cbn [length seq for_append].
  change ((0 + 1) mod 3) with 1. change ((0 + 2) mod 3) with 2.
  change ((1 + 1) mod 3) with 2. change ((1 + 2) mod 3) with 0.
  change ((2 + 1) mod 3) with 0. change ((2 + 2) mod 3) with 1.
  cbn [nth].
  pose proof (majority_vote_repeat s 2) as Hvote. cbn [repeat] in Hvote.
  repeat (rewrite (align_pairwise_self globalxs_optimal Hs); cbn [bind]).
  cbn [app]. now rewrite Hvote.
Qed.
End Consensus.

(** C4, as the code has it. With an aligner that returns a best-scoring
    global alignment first, one, two or three copies of a non-empty string
    give that string back; a single source gives its string back whatever
    it is. *)
Theorem identify_words_identical
    (globalxs : string -> string -> list (string * string))
    (s : string) (n : nat) :
  optimal_aligner globalxs ->
  1 <= n <= 3 ->
  s <> EmptyString \/ n = 1 ->
  identify_words globalxs (repeat s n) = Ok (Some s).
Proof.
  intros Hopt Hn Hs.
  destruct n as [|[|[|[|n]]]]; try lia.
  - apply identify_words_one.
  - destruct Hs as [Hs | Hs]; [|discriminate].
    now apply identify_words_two.
  - destruct Hs as [Hs | Hs]; [|discriminate].
    now apply identify_words_three.
Qed.

Lemma identify_words_identical_witness :
  identify_words reference_globalxs (repeat "hello" 3) = Ok (Some "hello").
Proof.
  apply (@identify_words_identical reference_globalxs "hello" 3).
  - exact reference_globalxs_optimal.
  - lia.
  - left. discriminate.
Defined.

(** C4 fails for the empty string: the aligner returns no alignment for an
    empty sequence, and two empty sources raise instead of returning the
    empty string. *)
Lemma identify_words_empty_pair_raises :
  identify_words reference_globalxs (repeat EmptyString 2) = Raise IndexError
  /\ identify_words reference_globalxs (repeat EmptyString 2)
     <> Ok (Some EmptyString).
Proof. split; [reflexivity | discriminate]. Qed.




(** ** Orchestrator *)

Lemma separate_to_lines_segmented (candidate : list Rectangle) :
  candidate <> [] ->
  separate_to_lines candidate
  = (sort_by_center candidate, Ok (segmented candidate)).
Proof.
  intros Hne. destruct (sort_by_center_cons Hne) as (first & rest & Hs).
  rewrite (separate_to_lines_unfold _ Hs). unfold segmented.
  now rewrite Hs.
Qed.

Lemma separate_candidates_eq (rect_lt : Rectangle -> Rectangle -> bool)
    (candidates : list (list Rectangle)) (acc : list (list line)) :
  separate_candidates rect_lt candidates acc
  = (map sort_by_center candidates,
     Ok (acc ++ candidate_lines_of rect_lt candidates)).
Proof.
  unfold candidate_lines_of. revert acc.
  induction candidates as [|candidate rest IH]; intros acc.
  - simpl. now rewrite app_nil_r.
  - destruct candidate as [|r rs].
    + cbn [separate_candidates]. rewrite IH. reflexivity.
    + cbn [separate_candidates].
      rewrite separate_to_lines_segmented by discriminate.
      rewrite IH. cbn [filter nonempty map]. now rewrite <- app_assoc.
Qed.

Lemma inner_max_words (group : list line) (m : nat) :
  fold_left (fun max_words l => Nat.max max_words (length l)) group m
  = Nat.max m (list_max (map (@length Rectangle) group)).
Proof.
  revert m. induction group as [|l group IH]; intros m; simpl.
  - lia.
  - rewrite IH. lia.
Qed.

(** [get_max_words] is the largest rectangle count of a line of a group. *)
Lemma get_max_words_eq (groups : list (list line)) :
  get_max_words groups = list_max (map (@length Rectangle) (concat groups)).
Proof.
  unfold get_max_words.
  assert (H : forall m,
             fold_left
               (fun max_words group =>
                  fold_left (fun max_words l => Nat.max max_words (length l))
                    group max_words) groups m
             = Nat.max m (list_max (map (@length Rectangle) (concat groups)))).
  { induction groups as [|g groups IH]; intros m.
    - simpl. lia.
    - cbn [fold_left concat].
      rewrite IH, inner_max_words, map_app, list_max_app.
      symmetry. apply Nat.max_assoc. }
  rewrite H. lia.
Qed.

Lemma str_items_Ok (words : list (option string)) (ws : list string) :
  str_items words = Ok ws <-> words = map Some ws.
Proof.
  revert ws. induction words as [|[w|] words IH]; intros ws; simpl.
  - split.
    + intros H. injection H as <-. reflexivity.
    + destruct ws; [reflexivity | discriminate].
  - destruct (str_items words) as [ws'|e] eqn:E; simpl.
    + split.
      * intros H. injection H as <-. simpl. f_equal. now apply IH.
      * destruct ws as [|w0 ws]; [discriminate|]. simpl.
        intros H. injection H as -> H. apply IH in H. congruence.
    + split; [discriminate|].
      destruct ws as [|w0 ws]; [discriminate|]. simpl.
      intros H. injection H as -> H. apply IH in H. discriminate.
  - split; [discriminate|]. destruct ws; discriminate.
Qed.

(** A loop of appends followed by a join gives a text exactly when every
    call gives a string, and then the text is the strings joined. *)
Lemma joined_words_Ok (A : Type) (f : A -> result (option string))
    (xs : list A) (sep text : string) :
  (words <- for_append f xs [] ;; str_join sep words) = Ok text <->
  exists ws,
    Forall2 (fun x w => f x = Ok (Some w)) xs ws /\
    text = String.concat sep ws.
Proof.
  split.
  - destruct (for_append f xs []) as [words|e] eqn:E; [|discriminate].
    simpl. unfold str_join.
    destruct (str_items words) as [ws|e] eqn:Ei; [|discriminate].
    simpl. intros H. injection H as <-.
    exists ws. split; [|reflexivity].
    apply str_items_Ok in Ei. subst words.
    apply for_append_Ok in E. clear -E.
    revert xs E. induction ws as [|w ws IH]; intros xs E;
      inversion E; subst; constructor; auto.
  - intros (ws & Hall & ->).
    assert (E : for_append f xs [] = Ok (map Some ws)).
    { apply for_append_Ok. induction Hall; simpl; constructor; auto. }
    rewrite E. simpl. unfold str_join.
    now rewrite (proj2 (str_items_Ok (map Some ws) ws) eq_refl).
Qed.

Lemma general_text_area_eq
    (globalxs : string -> string -> list (string * string))
    (rect_lt : Rectangle -> Rectangle -> bool)
    (candidates : list (list Rectangle)) (roi : ROI) :
  general_text_area globalxs rect_lt candidates roi
  = (map sort_by_center candidates,
     aligned_groups <- text_area_groups rect_lt candidates ;;
     words <-
       (if (length aligned_groups <=? 3)
           && (get_max_words aligned_groups <=? 5)
        then for_append (fun group => process_lines globalxs group roi)
               aligned_groups []
        else for_append fallback_words aligned_groups []) ;;
     str_join newline words).
Proof.
  unfold general_text_area, text_area_groups.
  rewrite separate_candidates_eq. reflexivity.
Qed.

(** C1. With at most 3 line groups and at most 5 rectangles in every line
    of every group, the text is made of one consensus string per group,
    each obtained by reconciling the group against the ROI, joining every
    line's contents, dropping the empty lines and identifying the words;
    otherwise it is made of the space-joined contents of the line at
    index 1 of every group; either way the strings are joined with
    newlines in the order of the groups. *)
Theorem general_text_area_strategy
    (globalxs : string -> string -> list (string * string))
    (rect_lt : Rectangle -> Rectangle -> bool)
    (candidates : list (list Rectangle)) (roi : ROI)
    (groups : list (list line)) :
  text_area_groups rect_lt candidates = Ok groups ->
  let full :=
    length groups <= 3 /\
    list_max (map (@length Rectangle) (concat groups)) <= 5 in
  (full ->
   forall text,
     snd (general_text_area globalxs rect_lt candidates roi) = Ok text <->
     exists words,
       Forall2
         (fun group word =>
            process_lines globalxs group roi = Ok (Some word))
         groups words /\
       text = String.concat newline words) /\
  (~ full ->
   forall text,
     snd (general_text_area globalxs rect_lt candidates roi) = Ok text <->
     exists words,
       Forall2
         (fun group word =>
            exists second,
              nth_error group 1 = Some second /\
              word = String.concat " " (map content second))
         groups words /\
       text = String.concat newline words) /\
  (forall group,
     process_lines globalxs group roi
     = identify_words globalxs
         (map (String.concat " ")
            (filter nonempty
               (map (map content) (filter_exceeding_words group roi))))).
Proof.
  intros Hgroups full. rewrite general_text_area_eq, Hgroups.
  cbn [snd bind]. rewrite get_max_words_eq.
  split; [|split].
  - intros [H3 H5].
    rewrite (proj2 (Nat.leb_le _ _) H3), (proj2 (Nat.leb_le _ _) H5).
    cbn [andb]. intros text. apply joined_words_Ok.
  - intros Hnot.
    assert (E : (length groups <=? 3)
                && (list_max (map (@length Rectangle) (concat groups)) <=? 5)
                = false).
    { apply andb_false_iff.
      destruct (Nat.leb_spec (length groups) 3) as [H3|H3]; [|now left].
      destruct (Nat.leb_spec
                  (list_max (map (@length Rectangle) (concat groups))) 5)
        as [H5|H5]; [|now right].
      exfalso. apply Hnot. now split. }
    rewrite E. intros text. rewrite joined_words_Ok.
    split; intros (ws & Hall & ->); exists ws; (split; [|reflexivity]);
      (eapply Forall2_impl; [|exact Hall]); intros group w;
      unfold fallback_words, line_text.
    + destruct group as [|l0 [|l1 others]]; simpl; intros H;
        try discriminate H.
      injection H as <-. now exists l1.
    + intros (second & Hsecond & ->).
      destruct group as [|l0 [|l1 others]]; simpl in *;
        try discriminate Hsecond.
      now injection Hsecond as ->.
  - reflexivity.
Qed.

(** *** What a call leaves in the caller's lists *)

Lemma segmented_sorted (candidate : list Rectangle) :
  segmented (sort_by_center candidate) = segmented candidate.
Proof. unfold segmented. now rewrite sort_by_center_idem. Qed.

Lemma nonempty_sorted (candidate : list Rectangle) :
  nonempty (sort_by_center candidate) = nonempty candidate.
Proof.
  destruct candidate as [|r rs]; [reflexivity|].
  destruct (@sort_by_center_cons (r :: rs)) as (first & rest & ->);
    [discriminate | reflexivity].
Qed.

Lemma candidate_lines_of_sorted (rect_lt : Rectangle -> Rectangle -> bool)
    (candidates : list (list Rectangle)) :
  candidate_lines_of rect_lt (map sort_by_center candidates)
  = candidate_lines_of rect_lt candidates.
Proof.
  unfold candidate_lines_of.
  induction candidates as [|c candidates IH]; [reflexivity|].
  cbn [map filter]. rewrite nonempty_sorted.
  destruct (nonempty c); [|exact IH].
  cbn [map]. now rewrite segmented_sorted, IH.
Qed.

(** C8, as the code has it. A call sorts every candidate list of the caller
    in place by vertical center, keeping its elements and its length; the
    returned text is a function of the arguments, and a second call on the
    lists as the first one left them returns the same text and leaves them
    as they are. *)
Theorem general_text_area_sorts_candidates
    (globalxs : string -> string -> list (string * string))
    (rect_lt : Rectangle -> Rectangle -> bool)
    (candidates : list (list Rectangle)) (roi : ROI) :
  fst (general_text_area globalxs rect_lt candidates roi)
  = map sort_by_center candidates /\
  Forall2 (@Permutation Rectangle)
    (fst (general_text_area globalxs rect_lt candidates roi)) candidates /\
  general_text_area globalxs rect_lt
    (fst (general_text_area globalxs rect_lt candidates roi)) roi
  = (fst (general_text_area globalxs rect_lt candidates roi),
     snd (general_text_area globalxs rect_lt candidates roi)).
Proof.
  rewrite (general_text_area_eq globalxs rect_lt candidates roi).
  cbn [fst snd]. split; [reflexivity|]. split.
  - induction candidates as [|c candidates IH]; simpl; constructor.
    + apply sort_by_center_perm.
    + exact IH.
  - rewrite general_text_area_eq. unfold text_area_groups.
    rewrite candidate_lines_of_sorted. f_equal.
    rewrite map_map. apply map_ext. intros c. apply sort_by_center_idem.
Qed.

(** C8 fails as stated: a candidate whose rectangles are not in order of
    vertical center is reordered by the call. *)
Lemma general_text_area_reorders_candidate :
  let lower := word_box 0 20 "world" in
  let upper := word_box 0 0 "hello" in
  let roi := mkROI (fun _ => false) in
  fst (general_text_area reference_globalxs reference_lt [[lower; upper]] roi)
  = [[upper; lower]] /\
  fst (general_text_area reference_globalxs reference_lt [[lower; upper]] roi)
  <> [[lower; upper]].
Proof.
  intros lower upper roi.
  assert (E : fst (general_text_area reference_globalxs reference_lt
                     [[lower; upper]] roi) = [[upper; lower]])
    by (vm_compute; reflexivity).
  split; [exact E|]. rewrite E. intros H.
  apply (f_equal (fun cs => map (map content) cs)) in H. discriminate H.
Qed.

(** ** Instances *)

Lemma general_text_area_strategy_witness :
  let candidates := [[word_box 0 0 "ABC"]; [word_box 0 1 "ABC"]] in
  let roi := mkROI (fun _ => false) in
  exists groups,
    text_area_groups reference_lt candidates = Ok groups /\
    forall text,
      snd (general_text_area reference_globalxs reference_lt candidates roi)
      = Ok text <->
      exists words,
        Forall2
          (fun group word =>
             process_lines reference_globalxs group roi = Ok (Some word))
          groups words /\
        text = String.concat newline words.
Proof.
  intros candidates roi. eexists. split; [vm_compute; reflexivity|].
  refine (proj1 (@general_text_area_strategy reference_globalxs reference_lt
                   candidates roi _ _) _).
  - vm_compute. reflexivity.
  - split; vm_compute; lia.
Defined.

Lemma filter_exceeding_words_cases_witness :
  let roi := mkROI (fun r => Qltb 100 (end_x r)) in
  let lines := [[word_box 0 0 "in"]; [word_box 0 0 "in"; word_box 95 0 "out"]] in
  filter_exceeding_words lines roi = map (within_roi roi) lines.
Proof.
  intros roi lines.
  apply (proj2 (filter_exceeding_words_cases roi lines)).
  intros [H | H]; inversion H as [|b bs Hb Hbs]; subst.
  - discriminate Hb.
  - inversion Hbs as [|b' bs' Hb' _]. discriminate Hb'.
Defined.

Lemma majority_vote_first_most_common_witness :
  exists voted,
    majority_vote ["ab"; "ba"; "bb"] = Ok (string_of_list_ascii voted) /\
    length voted = 2.
Proof.
  destruct (@majority_vote_first_most_common ["ab"; "ba"; "bb"])
    as (voted & Hvote & Hlen & _); [discriminate|].
  exists voted. split; [exact Hvote | exact Hlen].
Defined.

Lemma separate_to_lines_partition_witness :
  exists lines,
    snd (separate_to_lines [word_box 0 20 "b"; word_box 0 0 "a"]) = Ok lines /\
    Permutation (concat lines) [word_box 0 20 "b"; word_box 0 0 "a"].
Proof.
  destruct (@separate_to_lines_partition
              [word_box 0 20 "b"; word_box 0 0 "a"])
    as (lines & Hlines & Hperm & _); [discriminate|].
  exists lines. split; [exact Hlines | exact Hperm].
Defined.

Lemma separate_to_lines_no_empty_line_witness :
  exists lines,
    snd (separate_to_lines [word_box 0 20 "b"; word_box 0 0 "a"]) = Ok lines /\
    Forall (fun l => l <> []) lines.
Proof.
  apply (@separate_to_lines_no_empty_line
           [word_box 0 20 "b"; word_box 0 0 "a"]).
  - discriminate.
  - repeat constructor; simpl; lra.
Defined.


(** C5 fails as stated: one rectangle of negative height gives two lines,
    the first of them empty. *)
Lemma separate_to_lines_single_rectangle_two_lines :
  let r := mkRectangle 0 10 10 0 5 5 10 (-10) "a" in
  snd (separate_to_lines [r]) = Ok [[]; [r]] /\
  snd (separate_to_lines [r]) <> Ok [[r]].
Proof.
  intros r.
  assert (E : snd (separate_to_lines [r]) = Ok [[]; [r]])
    by (vm_compute; reflexivity).
  split; [exact E|]. rewrite E. discriminate.
Qed.

(** C10 fails as stated: with rectangles of negative height the first
    rectangle is taken for a line break and an empty line is returned. *)
Lemma separate_to_lines_returns_empty_line :
  let upper := mkRectangle 0 10 10 0 5 5 10 (-10) "a" in
  let lower := mkRectangle 0 40 10 30 5 35 10 (-10) "b" in
  [upper; lower] <> [] /\
  exists lines,
    snd (separate_to_lines [upper; lower]) = Ok lines /\
    ~ Forall (fun l => l <> []) lines.
Proof.
  intros upper lower. split; [discriminate|].
  exists [[]; [upper]; [lower]]. split; [vm_compute; reflexivity|].
  intros H. inversion H as [|l ls Hl _]. now apply Hl.
Qed.

(** * Further properties *)

(** ** Line segmenter: errors and the empty first line *)

Lemma lines_loop_current_nonempty (t : Q) (rs : list Rectangle)
    (lines : list line) (cur : line) (prev : Q) :
  cur <> [] -> snd (lines_loop t rs lines cur prev) <> [].
Proof.
  revert lines cur prev.
  induction rs as [|r rs IH]; intros lines cur prev Hcur; simpl.
  - exact Hcur.
  - destruct (Qltb t _); apply IH.
    + discriminate.
    + intros H. now apply app_eq_nil in H as [H _].
Qed.

(** The loop appends to the lines it was given: the lines and the current
    line it ends with are the given lines, the current line continued, and
    the lines cut after it. *)
Lemma lines_loop_continuation (t : Q) (rs : list Rectangle)
    (lines : list line) (cur : line) (prev : Q) :
  fst (lines_loop t rs lines cur prev) ++ [snd (lines_loop t rs lines cur prev)]
  = lines ++ (cur ++ fst (continuation t prev rs))
      :: snd (continuation t prev rs).
Proof.
  revert lines cur prev.
  induction rs as [|r rs IH]; intros lines cur prev.
  - simpl. now rewrite app_nil_r.
  - cbn [lines_loop continuation].
    destruct (continuation t (center_y r) rs) as [c more] eqn:E.
    destruct (Qltb t (Qabs (center_y r - prev))); rewrite IH, E; cbn [fst snd].
    + rewrite app_nil_r, <- app_assoc. reflexivity.
    + now rewrite <- app_assoc.
Qed.

Lemma flush_nonempty (lines : list line) (cur : line) :
  cur <> [] -> flush lines cur = lines ++ [cur].
Proof. destruct cur; [congruence | reflexivity]. Qed.

(** The lines cut from a sorted sequence whose first rectangle opens the
    first line. *)
Lemma segment_continuation (first : Rectangle) (rest : list Rectangle) :
  (0 <= mean (map height (first :: rest)) * (1 # 2))%Q ->
  segment first rest
  = (first
       :: fst (continuation (mean (map height (first :: rest)) * (1 # 2))
                 (center_y first) rest))
      :: snd (continuation (mean (map height (first :: rest)) * (1 # 2))
                (center_y first) rest).
Proof.
  intros Ht. unfold segment. cbv zeta.
  rewrite (lines_loop_first _ _ Ht).
  rewrite flush_nonempty
    by (apply lines_loop_current_nonempty; discriminate).
  now rewrite lines_loop_continuation.
Qed.

Lemma Qsum_negative (xs : list Q) :
  xs <> [] -> Forall (fun x => (x < 0)%Q) xs -> (Qsum xs < 0)%Q.
Proof.
  intros Hne Hall.
  assert (Hle : forall ys, Forall (fun x => (x < 0)%Q) ys -> (Qsum ys <= 0)%Q).
  { induction 1 as [|y ys Hy _ IH].
    - unfold Qsum. simpl. lra.
    - rewrite Qsum_cons. lra. }
  destruct Hall as [|x xs Hx Hxs]; [congruence|].
  rewrite Qsum_cons. specialize (Hle xs Hxs). lra.
Qed.

Lemma threshold_negative (rectangles : list Rectangle) :
  rectangles <> [] ->
  Forall (fun r => (height r < 0)%Q) rectangles ->
  (mean (map height rectangles) * (1 # 2) < 0)%Q.
Proof.
  intros Hne Hh.
  assert (Hm : (mean (map height rectangles) < 0)%Q).
  { unfold mean. apply Qlt_shift_div_r.
    - apply length_pos_Q. destruct rectangles; [congruence | discriminate].
    - rewrite Qmult_0_l. apply Qsum_negative.
      + destruct rectangles; [congruence | discriminate].
      + apply Forall_forall. intros x Hin.
        apply in_map_iff in Hin as (r & <- & Hin).
        rewrite Forall_forall in Hh. now apply Hh. }
  lra.
Qed.

(** With a negative threshold the first rectangle closes the line that is
    still empty. *)
Lemma segment_negative (first : Rectangle) (rest : list Rectangle) :
  (mean (map height (first :: rest)) * (1 # 2) < 0)%Q ->
  segment first rest
  = []
      :: (first
            :: fst (continuation (mean (map height (first :: rest)) * (1 # 2))
                      (center_y first) rest))
      :: snd (continuation (mean (map height (first :: rest)) * (1 # 2))
                (center_y first) rest).
Proof.
  intros Ht. unfold segment. cbv zeta.
  set (t := (mean (map height (first :: rest)) * (1 # 2))%Q) in *.
  assert (E : Qltb t (Qabs (center_y first - center_y first)) = true).
  { apply Qltb_true. eapply Qlt_le_trans; [exact Ht | apply Qabs_nonneg]. }
  cbn [lines_loop]. rewrite E. cbn [app].
  rewrite flush_nonempty
    by (apply lines_loop_current_nonempty; discriminate).
  now rewrite lines_loop_continuation.
Qed.

(** X2. On a non-empty candidate whose rectangles all have a negative
    height the threshold is negative, the first rectangle is taken for a
    line break, and the segmenter returns an empty line first. *)
Theorem separate_to_lines_negative_height_empty_line
    (rectangles : list Rectangle) :
  rectangles <> [] ->
  Forall (fun r => (height r < 0)%Q) rectangles ->
  exists lines, snd (separate_to_lines rectangles) = Ok ([] :: lines).
Proof.
  intros Hne Hh.
  destruct (sort_by_center_cons Hne) as (first & rest & Hs).
  rewrite (separate_to_lines_unfold _ Hs). cbn [snd].
  rewrite segment_negative; [eexists; reflexivity|].
  apply threshold_negative; [discriminate|].
  rewrite <- Hs. apply Forall_forall. intros r Hin.
  rewrite Forall_forall in Hh. apply Hh.
  now apply (Permutation_in _ (sort_by_center_perm rectangles)).
Qed.

Lemma separate_to_lines_negative_height_witness :
  exists lines,
    snd (separate_to_lines [mkRectangle 0 10 10 0 5 5 10 (-10) "a"])
    = Ok ([] :: lines).
Proof.
  apply (@separate_to_lines_negative_height_empty_line
           [mkRectangle 0 10 10 0 5 5 10 (-10) "a"]).
  - discriminate.
  - repeat constructor.
Defined.

(** X3. The segmenter sorts its argument in place before anything else: the
    caller's list is left sorted by vertical center whether the call
    returns or raises, and the call raises, with [IndexError], exactly on
    the empty list. *)
Theorem separate_to_lines_sorts_then_fails_on_empty
    (rectangles : list Rectangle) :
  fst (separate_to_lines rectangles) = sort_by_center rectangles /\
  (rectangles = [] <->
   snd (separate_to_lines rectangles) = Raise IndexError) /\
  (rectangles <> [] <->
   exists lines, snd (separate_to_lines rectangles) = Ok lines).
Proof.
  destruct rectangles as [|r rs].
  - split; [reflexivity|]. split.
    + split; reflexivity.
    + split; [congruence|]. intros [lines H]. discriminate H.
  - destruct (@sort_by_center_cons (r :: rs)) as (first & rest & Hs);
      [discriminate|].
    rewrite (separate_to_lines_unfold _ Hs), Hs. cbn [fst snd].
    split; [reflexivity|]. split.
    + split; discriminate.
    + split; [|discriminate]. intros _. eexists. reflexivity.
Qed.

(** ** get_max_words *)

Lemma list_max_attained (l : list nat) : l <> [] -> In (list_max l) l.
Proof.
  induction l as [|x l IH]; [congruence|]. intros _.
  destruct l as [|y l].
  - left. simpl. lia.
  - change (list_max (x :: y :: l)) with (Nat.max x (list_max (y :: l))).
    destruct (Nat.max_spec x (list_max (y :: l))) as [[_ ->] | [_ ->]].
    + right. apply IH. discriminate.
    + now left.
Qed.

(** X4. [get_max_words] bounds the rectangle count of every line of every
    group, some line reaches it when there is a line at all, and it is 0
    when there is none. *)
Theorem get_max_words_is_largest_line (groups : list (list line)) :
  (forall group l,
     In group groups -> In l group -> length l <= get_max_words groups) /\
  (concat groups <> [] ->
   exists group l,
     In group groups /\ In l group /\ length l = get_max_words groups) /\
  (concat groups = [] -> get_max_words groups = 0).
Proof.
  rewrite get_max_words_eq. split; [|split].
  - intros group l Hg Hl.
    pose proof (proj1 (list_max_le (map (@length Rectangle) (concat groups)) _)
                  (Nat.le_refl _)) as H.
    rewrite Forall_forall in H. apply H, in_map, in_concat.
    now exists group.
  - intros Hne.
    assert (Hin : In (list_max (map (@length Rectangle) (concat groups)))
                    (map (@length Rectangle) (concat groups))).
    { apply list_max_attained. destruct (concat groups);
        [congruence | discriminate]. }
    apply in_map_iff in Hin as (l & Hlen & Hin).
    apply in_concat in Hin as (group & Hg & Hl).
    now exists group, l.
  - intros ->. reflexivity.
Qed.

Lemma get_max_words_is_largest_line_witness :
  exists group l,
    In group [[[word_box 0 0 "a"; word_box 12 0 "b"]; [word_box 0 1 "ab"]]] /\
    In l group /\
    length l
    = get_max_words
        [[[word_box 0 0 "a"; word_box 12 0 "b"]; [word_box 0 1 "ab"]]].
Proof.
  apply (proj1 (proj2 (get_max_words_is_largest_line
                         [[[word_box 0 0 "a"; word_box 12 0 "b"];
                           [word_box 0 1 "ab"]]]))).
  discriminate.
Defined.

(** ** Voting *)

Lemma occurrences_two (col : list ascii) (c d : ascii) :
  c <> d -> occurrences col c + occurrences col d <= length col.
Proof.
  intros Hcd. induction col as [|x col IH]; [simpl; lia|].
  rewrite !occurrences_cons. cbn [length].
  destruct (Ascii.eqb x c) eqn:Ec, (Ascii.eqb x d) eqn:Ed; try lia.
  apply Ascii.eqb_eq in Ec, Ed. congruence.
Qed.

Lemma nth_voted (rows : list (list ascii)) (n i : nat) :
  i < n ->
  nth i (map (fun i => fst (winner (chars_at i rows))) (seq 0 n)) space
  = fst (winner (chars_at i rows)).
Proof.
  intros Hi.
  rewrite (nth_indep _ space (fst (winner (chars_at 0 rows))))
    by (now rewrite length_map, length_seq).
  rewrite (map_nth (fun x => fst (winner (chars_at x rows))) (seq 0 n) 0 i).
  now rewrite seq_nth.
Qed.

(** X5. A character that more than half of the strings carry at a position
    (after padding) is the voted character at that position. *)
Theorem majority_vote_strict_majority (strings : list string) :
  strings <> [] ->
  exists voted,
    majority_vote strings = Ok (string_of_list_ascii voted) /\
    forall i c,
      i < longest strings ->
      length strings
      < 2 * occurrences (chars_at i (padded strings (longest strings))) c ->
      nth i voted space = c.
Proof.
  intros Hne. eexists. split; [now apply majority_vote_eq|].
  intros i c Hi Hmaj. rewrite nth_voted by exact Hi.
  set (col := chars_at i (padded strings (longest strings))) in *.
  assert (Hlen : length col = length strings).
  { unfold col, chars_at, padded. now rewrite !length_map. }
  assert (Hcol : col <> []).
  { destruct col; [|discriminate]. destruct strings; [congruence|].
    discriminate Hlen. }
  destruct (winner_first_most_common Hcol) as [_ [Hmax _]].
  destruct (ascii_dec c (fst (winner col))) as [E | Hn]; [now symmetry|].
  pose proof (occurrences_two col Hn). specialize (Hmax c). lia.
Qed.

Lemma majority_vote_strict_majority_witness :
  exists voted,
    majority_vote ["cat"; "cot"; "cat"] = Ok (string_of_list_ascii voted).
Proof.
  destruct (@majority_vote_strict_majority ["cat"; "cot"; "cat"])
    as (voted & Hvote & _); [discriminate|].
  now exists voted.
Defined.

(** X6. The vote raises exactly on the empty list, and then a
    [ValueError] (the [max] of no length). *)
Theorem majority_vote_raises_on_empty (strings : list string) (e : exn) :
  majority_vote strings = Raise e <-> strings = [] /\ e = ValueError.
Proof.
  split.
  - destruct strings as [|s rest].
    + intros H. injection H as <-. now split.
    + rewrite majority_vote_eq by discriminate. discriminate.
  - intros [-> ->]. reflexivity.
Qed.

Lemma winner_pair (x y : ascii) : fst (winner [x; y]) = x.
Proof.
  unfold winner, count_chars. simpl.
  destruct (Ascii.eqb x y); reflexivity.
Qed.

(** Two strings elect the first one, padded to the length of the second. *)
Lemma majority_vote_pair (a b : string) :
  majority_vote [a; b] = Ok (ljust_string a (String.length b)).
Proof.
  rewrite majority_vote_eq by discriminate. unfold ljust_string. do 2 f_equal.
  set (n := longest [a; b]).
  assert (Hn : n = Nat.max (String.length a) (String.length b)).
  { unfold n, longest. simpl. lia. }
  assert (Hrow : ljust (list_ascii_of_string a) n
                 = ljust (list_ascii_of_string a) (String.length b)).
  { unfold ljust. f_equal. f_equal.
    rewrite length_list_ascii_of_string. lia. }
  assert (Hlen : length (ljust (list_ascii_of_string a) n) = n).
  { apply ljust_length. rewrite length_list_ascii_of_string. lia. }
  rewrite <- Hrow.
  transitivity (map (fun i => nth i (ljust (list_ascii_of_string a) n) space)
                  (seq 0 (length (ljust (list_ascii_of_string a) n))));
    [|apply map_nth_seq].
  rewrite Hlen. apply map_ext. intros i.
  unfold padded, chars_at. cbn [map]. apply winner_pair.
Qed.

(** X7. With two strings the vote changes nothing: a tie goes to the
    character seen first, so the result is the first string padded with
    spaces to the length of the second; two lines are therefore identified
    as the first alignment, padded to the length of the second. *)
Theorem identify_words_two_keeps_first_alignment
    (globalxs : string -> string -> list (string * string)) :
  (forall a b, majority_vote [a; b] = Ok (ljust_string a (String.length b))) /\
  (forall line_0 line_1 align_1 align_2,
     align_pairwise globalxs line_0 line_1 = Ok align_1 ->
     align_pairwise globalxs line_1 line_0 = Ok align_2 ->
     identify_words globalxs [line_0; line_1]
     = Ok (Some (ljust_string align_1 (String.length align_2)))).
Proof.
  split; [exact majority_vote_pair|].
  intros line_0 line_1 align_1 align_2 H1 H2.
  unfold identify_words. rewrite H1, H2. cbn [bind].
  now rewrite majority_vote_pair.
Qed.

Lemma identify_words_two_keeps_first_alignment_witness :
  identify_words reference_globalxs ["hello"; "helo"]
  = Ok (Some (ljust_string "hello" (String.length "hel o"))).
Proof.
  apply (proj2 (identify_words_two_keeps_first_alignment reference_globalxs));
    reflexivity.
Defined.

(** ** Consensus engine: what it returns and what it raises *)

Lemma for_append_length (A B : Type) (f : A -> result B) (xs : list A)
    (acc ys : list B) :
  for_append f xs acc = Ok ys -> length ys = length acc + length xs.
Proof.
  revert acc. induction xs as [|x xs IH]; intros acc; simpl.
  - intros H. injection H as <-. lia.
  - destruct (f x) as [y|e]; simpl; [|discriminate].
    intros H. apply IH in H. rewrite length_app in H. simpl in H. lia.
Qed.

(** A loop of appends raises what its first failing call raises. *)
Lemma for_append_raise (A B : Type) (f : A -> result B) (xs : list A)
    (acc : list B) (e : exn) :
  for_append f xs acc = Raise e -> exists x, In x xs /\ f x = Raise e.
Proof.
  revert acc. induction xs as [|x xs IH]; intros acc; simpl.
  - discriminate.
  - destruct (f x) as [y|e'] eqn:E; simpl.
    + intros H. destruct (IH _ H) as (x' & Hin & Hx'). exists x'. auto.
    + intros H. injection H as ->. exists x. auto.
Qed.

Lemma align_pairwise_cases
    (globalxs : string -> string -> list (string * string)) (a b : string) :
  (globalxs a b = [] /\ align_pairwise globalxs a b = Raise IndexError) \/
  (globalxs a b <> [] /\ exists s, align_pairwise globalxs a b = Ok s).
Proof.
  unfold align_pairwise. destruct (globalxs a b) as [|al rest].
  - now left.
  - right. split; [discriminate|]. now exists (fst al).
Qed.

Lemma majority_vote_nonempty (strings : list string) :
  strings <> [] -> exists s, majority_vote strings = Ok s.
Proof. intros H. rewrite (majority_vote_eq H). eexists. reflexivity. Qed.

(** The outcomes of [identify_words], by the number of lines. *)
Lemma identify_words_cases
    (globalxs : string -> string -> list (string * string))
    (lines : list string) :
  ((length lines = 0 \/ 3 < length lines) /\
   identify_words globalxs lines = Ok None) \/
  (1 <= length lines <= 3 /\
   ((exists s, identify_words globalxs lines = Ok (Some s)) \/
    (identify_words globalxs lines = Raise IndexError /\
     exists a b, globalxs a b = []))).
Proof.
  destruct lines as [|l0 [|l1 [|l2 [|l3 rest]]]].
  - left. split; [now left | reflexivity].
  - right. split; [simpl; lia|]. left. now exists l0.
  - right. split; [simpl; lia|]. unfold identify_words.
    destruct (align_pairwise_cases globalxs l0 l1) as [[E0 ->] | [_ [a1 ->]]];
      [right; split; [reflexivity | now exists l0, l1]|].
    destruct (align_pairwise_cases globalxs l1 l0) as [[E0 ->] | [_ [a2 ->]]];
      [right; split; [reflexivity | now exists l1, l0]|].
    cbn [bind].
    destruct (@majority_vote_nonempty [a1; a2]) as [s ->]; [discriminate|].
    left. now exists s.
  - right. split; [simpl; lia|]. unfold identify_words.
    destruct (for_append _ (seq 0 (length [l0; l1; l2])) [])
      as [results|e] eqn:E; cbn [bind].
    + apply for_append_length in E. simpl in E.
      destruct (@majority_vote_nonempty results) as [s ->].
      * destruct results; [discriminate E | discriminate].
      * left. now exists s.
    + right. apply for_append_raise in E as (i & _ & Hi).
      set (this := nth i [l0; l1; l2] EmptyString) in Hi.
      set (other1 := nth ((i + 1) mod 3) [l0; l1; l2] EmptyString) in Hi.
      set (other2 := nth ((i + 2) mod 3) [l0; l1; l2] EmptyString) in Hi.
      destruct (align_pairwise_cases globalxs this other1)
        as [[E1 H1] | [_ [a1 H1]]]; rewrite H1 in Hi; cbn [bind] in Hi.
      { injection Hi as <-. split; [reflexivity | now exists this, other1]. }
      destruct (align_pairwise_cases globalxs this other2)
        as [[E2 H2] | [_ [a2 H2]]]; rewrite H2 in Hi; cbn [bind] in Hi.
      { injection Hi as <-. split; [reflexivity | now exists this, other2]. }
      destruct (align_pairwise_cases globalxs a1 a2)
        as [[E3 H3] | [_ [a3 H3]]]; rewrite H3 in Hi.
      { injection Hi as <-. split; [reflexivity | now exists a1, a2]. }
      discriminate Hi.
  - left. split; [right; simpl; lia | reflexivity].
Qed.

(** X8. [identify_words] returns [None] exactly when it is given no line or
    more than three lines. *)
Theorem identify_words_none_iff
    (globalxs : string -> string -> list (string * string))
    (lines : list string) :
  identify_words globalxs lines = Ok None <->
  length lines = 0 \/ 3 < length lines.
Proof.
  destruct (identify_words_cases globalxs lines)
    as [[Hlen E] | [Hlen [[s E] | [E _]]]]; rewrite E.
  - split; [intros _; exact Hlen | reflexivity].
  - split; [discriminate | lia].
  - split; [discriminate | lia].
Qed.

(** X9. The only exception [identify_words] raises is [IndexError], and it
    raises it only when the aligner returned no alignment for some pair of
    strings. *)
Theorem identify_words_raises_only_index_error
    (globalxs : string -> string -> list (string * string))
    (lines : list string) (e : exn) :
  identify_words globalxs lines = Raise e ->
  e = IndexError /\ exists a b, globalxs a b = [].
Proof.
  destruct (identify_words_cases globalxs lines)
    as [[_ E] | [_ [[s E] | [E Hex]]]]; rewrite E; try discriminate.
  intros H. injection H as <-. now split.
Qed.

Lemma identify_words_raises_only_index_error_witness :
  IndexError = IndexError /\ exists a b, reference_globalxs a b = [].
Proof.
  apply (@identify_words_raises_only_index_error reference_globalxs
           [EmptyString; EmptyString] IndexError).
  reflexivity.
Defined.

Lemma string_of_list_ascii_nonempty (l : list ascii) :
  l <> [] -> string_of_list_ascii l <> EmptyString.
Proof. destruct l; [congruence | discriminate]. Qed.

Lemma list_ascii_of_string_nonempty (s : string) :
  s <> EmptyString -> list_ascii_of_string s <> [].
Proof. destruct s; [congruence | discriminate]. Qed.

(** An alignment of a non-empty first sequence has a non-empty first gapped
    sequence. *)
Lemma gappedA_nonempty (cols : list column) :
  seqA cols <> [] -> gappedA cols <> [].
Proof. destruct cols; [intros H; now apply H | discriminate]. Qed.

Lemma align_pairwise_nonempty
    (globalxs : string -> string -> list (string * string)) (a b : string) :
  optimal_aligner globalxs ->
  a <> EmptyString -> b <> EmptyString ->
  exists x, align_pairwise globalxs a b = Ok x /\ x <> EmptyString.
Proof.
  intros Hopt Ha Hb.
  destruct (Hopt a b Ha Hb) as (cols & rest & E & [[HA _] _]).
  unfold align_pairwise. rewrite E. eexists. split; [reflexivity|].
  cbn [fst]. apply string_of_list_ascii_nonempty, gappedA_nonempty.
  rewrite HA. now apply list_ascii_of_string_nonempty.
Qed.

(** X10. With an aligner that returns a best-scoring global alignment first
    for every two non-empty strings, one, two or three non-empty lines
    always give a string: nothing is raised and [None] is not returned. *)
Theorem identify_words_nonempty_lines_give_string
    (globalxs : string -> string -> list (string * string))
    (lines : list string) :
  optimal_aligner globalxs ->
  1 <= length lines <= 3 ->
  Forall (fun l => l <> EmptyString) lines ->
  exists s, identify_words globalxs lines = Ok (Some s).
Proof.
  intros Hopt Hlen Hne.
  destruct lines as [|l0 [|l1 [|l2 [|l3 rest]]]]; simpl in Hlen; try lia.
  - now exists l0.
  - inversion Hne as [|? ? H0 Hne1]; subst.
    inversion Hne1 as [|? ? H1 _]; subst.
    unfold identify_words.
    destruct (@align_pairwise_nonempty globalxs l0 l1 Hopt H0 H1)
      as (a1 & -> & _).
    destruct (@align_pairwise_nonempty globalxs l1 l0 Hopt H1 H0)
      as (a2 & -> & _).
    cbn [bind].
    destruct (@majority_vote_nonempty [a1; a2]) as [s ->]; [discriminate|].
    now exists s.
  - inversion Hne as [|? ? H0 Hne1]; subst.
    inversion Hne1 as [|? ? H1 Hne2]; subst.
    inversion Hne2 as [|? ? H2 _]; subst.
    unfold identify_words. cbn [length seq for_append].
    change ((0 + 1) mod 3) with 1. change ((0 + 2) mod 3) with 2.
    change ((1 + 1) mod 3) with 2. change ((1 + 2) mod 3) with 0.
    change ((2 + 1) mod 3) with 0. change ((2 + 2) mod 3) with 1.
    cbn [nth].
    repeat
      match goal with
      | |- context [align_pairwise globalxs ?a ?b] =>
          let x := fresh "x" in
          let Hx := fresh "Hx" in
          destruct (@align_pairwise_nonempty globalxs a b Hopt)
            as (x & -> & Hx); [assumption | assumption |]; cbn [bind]
      end.
    cbn [app].
    match goal with
    | |- context [majority_vote ?rs] =>
        destruct (@majority_vote_nonempty rs) as [s ->]; [discriminate|]
    end.
    now exists s.
Qed.

Lemma identify_words_nonempty_lines_give_string_witness :
  exists s,
    identify_words reference_globalxs ["hello"; "helo"; "hallo"]
    = Ok (Some s).
Proof.
  apply (@identify_words_nonempty_lines_give_string reference_globalxs
           ["hello"; "helo"; "hallo"]).
  - exact reference_globalxs_optimal.
  - simpl. lia.
  - repeat constructor; discriminate.
Defined.

(** ** Boundary reconciler and [process_lines] *)

Lemma filter_exceeding_words_eq (lines : list line) (roi : ROI) :
  filter_exceeding_words lines roi
  = if py_all (map (line_exceeds roi) lines)
       || negb (py_any (map (line_exceeds roi) lines))
    then lines
    else map (within_roi roi) lines.
Proof.
  unfold filter_exceeding_words. rewrite reduce_lines_eq. simpl.
  now destruct (py_all _ || negb (py_any _)).
Qed.

Lemma within_roi_not_exceeding (roi : ROI) (l : line) :
  line_exceeds roi (within_roi roi l) = false.
Proof.
  unfold line_exceeds, within_roi. induction l as [|r l IH]; simpl.
  - reflexivity.
  - destruct (exceeding_rectangle roi r) eqn:E; simpl; [exact IH|].
    now rewrite E, IH.
Qed.

(** X11. The reconciler keeps the number of lines and is idempotent:
    reconciling its own output changes nothing. *)
Theorem filter_exceeding_words_idempotent (lines : list line) (roi : ROI) :
  length (filter_exceeding_words lines roi) = length lines /\
  filter_exceeding_words (filter_exceeding_words lines roi) roi
  = filter_exceeding_words lines roi.
Proof.
  rewrite (filter_exceeding_words_eq lines).
  destruct (py_all _ || negb (py_any _)) eqn:E.
  - split; [reflexivity|]. now rewrite filter_exceeding_words_eq, E.
  - split; [apply length_map|].
    rewrite filter_exceeding_words_eq.
    assert (Hany : py_any (map (line_exceeds roi) (map (within_roi roi) lines))
                   = false).
    { apply py_any_false, Forall_forall. intros b Hin.
      apply in_map_iff in Hin as (l & <- & Hin).
      apply in_map_iff in Hin as (l0 & <- & _).
      apply within_roi_not_exceeding. }
    now rewrite Hany, orb_true_r.
Qed.

Lemma filter_exceeding_words_one (l : line) (roi : ROI) :
  filter_exceeding_words [l] roi = [l].
Proof.
  rewrite filter_exceeding_words_eq. unfold py_all, py_any. simpl.
  now destruct (line_exceeds roi l).
Qed.

(** X12. With no line or a single line there is nothing to disagree with:
    the reconciler returns its input, whatever exceeds the ROI. *)
Theorem filter_exceeding_words_single_source (lines : list line) (roi : ROI) :
  length lines <= 1 -> filter_exceeding_words lines roi = lines.
Proof.
  intros Hlen. rewrite filter_exceeding_words_eq.
  destruct lines as [|l [|l' rest]]; [reflexivity | | simpl in Hlen; lia].
  unfold py_all, py_any. simpl.
  now destruct (line_exceeds roi l).
Qed.

Lemma filter_exceeding_words_single_source_witness :
  let roi := mkROI (fun _ => true) in
  filter_exceeding_words [[word_box 0 0 "out"]] roi = [[word_box 0 0 "out"]].
Proof.
  intros roi.
  apply (@filter_exceeding_words_single_source [[word_box 0 0 "out"]] roi).
  simpl. lia.
Defined.

Lemma process_lines_eq
    (globalxs : string -> string -> list (string * string))
    (lines : list line) (roi : ROI) :
  process_lines globalxs lines roi
  = identify_words globalxs
      (map line_text (filter nonempty (filter_exceeding_words lines roi))).
Proof.
  unfold process_lines. f_equal.
  induction (filter_exceeding_words lines roi) as [|l ls IH]; [reflexivity|].
  cbn [map filter]. destruct l as [|r l]; cbn [map nonempty]; [exact IH|].
  cbn [map]. now rewrite IH.
Qed.

Lemma process_lines_one
    (globalxs : string -> string -> list (string * string))
    (r : Rectangle) (rest : line) (roi : ROI) :
  process_lines globalxs [r :: rest] roi
  = Ok (Some (line_text (r :: rest))).
Proof. now rewrite process_lines_eq, filter_exceeding_words_one. Qed.

(** X13. A group of one line needs no consensus and no reconciliation: its
    rectangles' contents, joined with spaces, are returned as they are, and
    a line without rectangles gives [None]. *)
Theorem process_lines_single_line
    (globalxs : string -> string -> list (string * string))
    (l : line) (roi : ROI) :
  process_lines globalxs [l] roi
  = if nonempty l then Ok (Some (String.concat " " (map content l)))
    else Ok None.
Proof.
  destruct l as [|r rest].
  - now rewrite process_lines_eq, filter_exceeding_words_one.
  - apply process_lines_one.
Qed.

(** X14. [process_lines] returns [None] exactly when, after reconciliation,
    no line or more than three lines still hold a rectangle. *)
Theorem process_lines_none_iff
    (globalxs : string -> string -> list (string * string))
    (lines : list line) (roi : ROI) :
  process_lines globalxs lines roi = Ok None <->
  length (filter nonempty (filter_exceeding_words lines roi)) = 0 \/
  3 < length (filter nonempty (filter_exceeding_words lines roi)).
Proof.
  rewrite process_lines_eq.
  set (kept := filter nonempty (filter_exceeding_words lines roi)).
  assert (Hkept : length (map line_text kept) = length kept)
    by apply length_map.
  destruct (identify_words_cases globalxs (map line_text kept))
    as [[Hlen E] | [Hlen [[s E] | [E _]]]]; rewrite E, Hkept in *.
  - split; [intros _; exact Hlen | reflexivity].
  - split; [discriminate | lia].
  - split; [discriminate | lia].
Qed.

(** ** Orchestrator: what it raises and its smallest inputs *)

Lemma str_items_None (words : list (option string)) :
  In None words -> str_items words = Raise TypeError.
Proof.
  induction words as [|[w|] words IH]; intros Hin.
  - destruct Hin.
  - destruct Hin as [Hin | Hin]; [discriminate|].
    simpl. now rewrite IH.
  - reflexivity.
Qed.

(** X15. In the full regime, when no group raises and some group gives
    [None] (no line, or more than three lines, survive in it), joining the
    words raises [TypeError]. *)
Theorem general_text_area_none_word_type_error
    (globalxs : string -> string -> list (string * string))
    (rect_lt : Rectangle -> Rectangle -> bool)
    (candidates : list (list Rectangle)) (roi : ROI)
    (groups : list (list line)) :
  text_area_groups rect_lt candidates = Ok groups ->
  length groups <= 3 ->
  list_max (map (@length Rectangle) (concat groups)) <= 5 ->
  Forall (fun group => exists w, process_lines globalxs group roi = Ok w)
    groups ->
  Exists (fun group => process_lines globalxs group roi = Ok None) groups ->
  snd (general_text_area globalxs rect_lt candidates roi) = Raise TypeError.
Proof.
  intros Hgroups H3 H5 Hall Hnone.
  rewrite general_text_area_eq, Hgroups. cbn [snd bind].
  rewrite get_max_words_eq.
  rewrite (proj2 (Nat.leb_le _ _) H3), (proj2 (Nat.leb_le _ _) H5).
  cbn [andb].
  assert (Hws : exists ws,
             for_append (fun group => process_lines globalxs group roi)
               groups [] = Ok ws /\ In None ws).
  { clear Hgroups H3 H5.
    induction Hall as [|g gs [w Hw] Hgs IH].
    - inversion Hnone.
    - cbn [for_append]. rewrite Hw. cbn [bind]. rewrite for_append_app.
      assert (Hrest : exists ws,
                 for_append (fun group => process_lines globalxs group roi)
                   gs [] = Ok ws).
      { clear -Hgs. induction Hgs as [|g gs [w Hw] _ [ws IH]].
        - now exists [].
        - cbn [for_append]. rewrite Hw. cbn [bind].
          rewrite for_append_app, IH. eexists. reflexivity. }
      inversion Hnone as [? ? Hg | ? ? Hrest']; subst.
      + destruct Hrest as [ws ->]. cbn [bind]. eexists.
        split; [reflexivity|]. left. congruence.
      + destruct (IH Hrest') as (ws & -> & Hin). cbn [bind]. eexists.
        split; [reflexivity|]. right. exact Hin. }
  destruct Hws as (ws & -> & Hin). cbn [bind]. unfold str_join.
  now rewrite str_items_None.
Qed.

Lemma general_text_area_none_word_type_error_witness :
  let roi := mkROI (fun _ => false) in
  snd (general_text_area reference_globalxs reference_lt
         [[word_box 0 0 "a"; word_box 12 1 "b"]; [word_box 0 1 "a"];
          [word_box 0 2 "a"]; [word_box 0 3 "a"]] roi)
  = Raise TypeError.
Proof.
  intros roi.
  eapply general_text_area_none_word_type_error.
  - vm_compute. reflexivity.
  - vm_compute. lia.
  - vm_compute. lia.
  - repeat constructor; eexists; vm_compute; reflexivity.
  - repeat constructor.
Defined.

Lemma fallback_words_cases (group : list line) :
  (length group < 2 /\ fallback_words group = Raise IndexError) \/
  (2 <= length group /\ exists w, fallback_words group = Ok w).
Proof.
  unfold fallback_words.
  destruct group as [|l0 [|l1 rest]]; simpl.
  - left. split; [lia | reflexivity].
  - left. split; [lia | reflexivity].
  - right. split; [lia|]. eexists. reflexivity.
Qed.

(** X16. In the cheap regime a group with fewer than two lines has no line
    at index 1: the call raises [IndexError]. *)
Theorem general_text_area_fallback_index_error
    (globalxs : string -> string -> list (string * string))
    (rect_lt : Rectangle -> Rectangle -> bool)
    (candidates : list (list Rectangle)) (roi : ROI)
    (groups : list (list line)) :
  text_area_groups rect_lt candidates = Ok groups ->
  3 < length groups \/
  5 < list_max (map (@length Rectangle) (concat groups)) ->
  Exists (fun group => length group < 2) groups ->
  snd (general_text_area globalxs rect_lt candidates roi) = Raise IndexError.
Proof.
  intros Hgroups Hcheap Hshort.
  rewrite general_text_area_eq, Hgroups. cbn [snd bind].
  rewrite get_max_words_eq.
  assert (E : (length groups <=? 3)
              && (list_max (map (@length Rectangle) (concat groups)) <=? 5)
              = false).
  { apply andb_false_iff.
    destruct Hcheap as [H | H]; [left | right]; apply Nat.leb_gt; exact H. }
  rewrite E.
  assert (Hraise : forall acc,
             for_append fallback_words groups acc = Raise IndexError).
  { clear -Hshort. induction groups as [|g gs IH]; intros acc.
    - inversion Hshort.
    - cbn [for_append].
      destruct (fallback_words_cases g) as [[_ ->] | [Hlen [w ->]]];
        [reflexivity|].
      cbn [bind]. apply IH.
      inversion Hshort as [? ? Hg | ? ? Hrest]; subst; [lia | exact Hrest]. }
  now rewrite Hraise.
Qed.

Lemma general_text_area_fallback_index_error_witness :
  snd (general_text_area reference_globalxs reference_lt
         [[word_box 0 0 "a"; word_box 0 20 "b"; word_box 0 40 "c";
           word_box 0 60 "d"]] (mkROI (fun _ => false)))
  = Raise IndexError.
Proof.
  eapply general_text_area_fallback_index_error.
  - vm_compute. reflexivity.
  - left. vm_compute. lia.
  - repeat constructor.
Defined.

(** X17. With no candidate, or only empty candidates, there is no line and
    no group: the call returns the empty text and leaves the candidates as
    they are. *)
Theorem general_text_area_no_rectangles
    (globalxs : string -> string -> list (string * string))
    (rect_lt : Rectangle -> Rectangle -> bool)
    (candidates : list (list Rectangle)) (roi : ROI) :
  Forall (fun candidate => candidate = []) candidates ->
  general_text_area globalxs rect_lt candidates roi
  = (candidates, Ok EmptyString).
Proof.
  intros Hall. rewrite general_text_area_eq.
  assert (Hboth : map sort_by_center candidates = candidates /\
                  candidate_lines_of rect_lt candidates = []).
  { unfold candidate_lines_of.
    induction Hall as [|c cs -> _ [IH1 IH2]]; [now split|].
    cbn [map filter nonempty]. split; [|exact IH2].
    change (sort_by_center []) with (@nil Rectangle). now rewrite IH1. }
  destruct Hboth as [Hsort Hlines].
  unfold text_area_groups. now rewrite Hsort, Hlines.
Qed.

Lemma general_text_area_no_rectangles_witness :
  general_text_area reference_globalxs reference_lt [[]; []]
    (mkROI (fun _ => false))
  = ([[]; []], Ok EmptyString).
Proof.
  apply general_text_area_no_rectangles. repeat constructor.
Defined.

(** X18. One source with one rectangle: the text is the rectangle's content
    when its height is not negative; when it is negative the segmenter's
    empty first line makes the grouper raise [ValueError]. *)
Theorem general_text_area_single_rectangle
    (globalxs : string -> string -> list (string * string))
    (rect_lt : Rectangle -> Rectangle -> bool)
    (r : Rectangle) (roi : ROI) :
  ((0 <= height r)%Q ->
   general_text_area globalxs rect_lt [[r]] roi = ([[r]], Ok (content r))) /\
  ((height r < 0)%Q ->
   general_text_area globalxs rect_lt [[r]] roi
   = ([[r]], Raise ValueError)).
Proof.
  rewrite general_text_area_eq.
  change (map sort_by_center [[r]]) with [[r]].
  unfold text_area_groups, candidate_lines_of. cbn [filter nonempty map].
  change (segmented [r]) with (segment r []).
  split; intros Hh.
  - rewrite segment_continuation
      by (apply threshold_nonneg; [discriminate | now constructor]).
    cbn [continuation fst snd map]. change (sort rect_lt [r]) with [r].
    unfold align_lines, align_lines_groups. cbn [add_candidates add_lines].
    unfold add_line. cbn [join_groups negb dict_set bind map snd].
    cbn [length Nat.leb andb].
    change (get_max_words [[[r]]]) with 1. cbn [Nat.leb andb for_append].
    rewrite process_lines_one. cbn [bind app]. unfold str_join. cbn [str_items bind].
    unfold line_text. simpl. reflexivity.
  - rewrite segment_negative
      by (apply threshold_negative; [discriminate | now constructor]).
    reflexivity.
Qed.

Lemma general_text_area_single_rectangle_witness :
  general_text_area reference_globalxs reference_lt [[word_box 0 0 "ABC"]]
    (mkROI (fun _ => true))
  = ([[word_box 0 0 "ABC"]], Ok "ABC").
Proof.
  apply (proj1 (general_text_area_single_rectangle reference_globalxs
                  reference_lt (word_box 0 0 "ABC") (mkROI (fun _ => true)))).
  simpl. lra.
Defined.

(** ** Cross-source line grouper: errors, membership *)

Lemma add_line_cases (groups : groups_dict) (l : line) :
  (l = [] /\ add_line groups l = Raise ValueError) \/
  (l <> [] /\ exists groups', add_line groups l = Ok groups').
Proof.
  destruct l as [|first rest].
  - now left.
  - right. split; [discriminate|]. unfold add_line.
    destruct (join_groups _ _ _ _ _) as [joined_groups grouped].
    eexists. reflexivity.
Qed.

Lemma add_lines_cases (lines : list line) (groups : groups_dict) :
  (Exists (fun l => l = []) lines /\
   add_lines groups lines = Raise ValueError) \/
  (Forall (fun l => l <> []) lines /\
   exists groups', add_lines groups lines = Ok groups').
Proof.
  revert groups. induction lines as [|l lines IH]; intros groups.
  - right. split; [constructor | now exists groups].
  - cbn [add_lines].
    destruct (add_line_cases groups l) as [[-> ->] | [Hl [g1 ->]]].
    + left. split; [now constructor | reflexivity].
    + cbn [bind]. destruct (IH g1) as [[Hex ->] | [Hall [g2 ->]]].
      * left. split; [now apply Exists_cons_tl | reflexivity].
      * right. split; [now constructor | now exists g2].
Qed.

Lemma add_candidates_cases (candidate_lines : list (list line))
    (groups : groups_dict) :
  (Exists (Exists (fun l => l = [])) candidate_lines /\
   add_candidates groups candidate_lines = Raise ValueError) \/
  (Forall (Forall (fun l => l <> [])) candidate_lines /\
   exists groups', add_candidates groups candidate_lines = Ok groups').
Proof.
  revert groups.
  induction candidate_lines as [|lines rest IH]; intros groups.
  - right. split; [constructor | now exists groups].
  - cbn [add_candidates].
    destruct (add_lines_cases lines groups) as [[Hex ->] | [Hall [g1 ->]]].
    + left. split; [now constructor | reflexivity].
    + cbn [bind]. destruct (IH g1) as [[Hex ->] | [Hall' [g2 ->]]].
      * left. split; [now apply Exists_cons_tl | reflexivity].
      * right. split; [now constructor | now exists g2].
Qed.

(** X19. The grouper returns groups exactly when no line is empty; a line
    without rectangles makes it raise [ValueError] (the [max] of no
    bottom), whatever the other lines are. *)
Theorem align_lines_empty_line_value_error
    (candidate_lines : list (list line)) :
  (Forall (Forall (fun l => l <> [])) candidate_lines <->
   exists groups, align_lines candidate_lines = Ok groups) /\
  (Exists (Exists (fun l => l = [])) candidate_lines <->
   align_lines candidate_lines = Raise ValueError).
Proof.
  unfold align_lines, align_lines_groups.
  destruct (add_candidates_cases candidate_lines [])
    as [[Hex ->] | [Hall [groups ->]]]; cbn [bind].
  - split; split.
    + intros Hall. exfalso. clear -Hex Hall.
      induction Hex as [lines rest Hex | lines rest _ IH];
        inversion Hall as [|? ? Hlines Hrest]; subst; [|now apply IH].
      clear -Hex Hlines.
      induction Hex as [l ls -> | l ls _ IH];
        inversion Hlines as [|? ? Hl Hls]; subst; [congruence | now apply IH].
    + intros [groups H]. discriminate H.
    + reflexivity.
    + intros _. exact Hex.
  - split; split.
    + intros _. eexists. reflexivity.
    + intros _. exact Hall.
    + intros Hex. exfalso. clear -Hex Hall.
      induction Hex as [lines rest Hex | lines rest _ IH];
        inversion Hall as [|? ? Hlines Hrest]; subst; [|now apply IH].
      clear -Hex Hlines.
      induction Hex as [l ls -> | l ls _ IH];
        inversion Hlines as [|? ? Hl Hls]; subst; [congruence | now apply IH].
    + discriminate.
Qed.

Lemma joined_length (l : line) (groups : groups_dict) :
  length (joined l groups) = length groups.
Proof. apply length_map. Qed.

Lemma add_line_holds (groups : groups_dict) (seen : list line) (l : line) :
  line_ok l -> groups_hold groups seen ->
  exists groups',
    add_line groups l = Ok groups' /\ groups_hold groups' (seen ++ [l]).
Proof.
  intros [Hne Hc] (Hmem & Hlen & Hfull).
  rewrite (add_line_step groups Hne Hc). eexists. split; [reflexivity|].
  destruct (existsb (covers l) (map fst groups)) eqn:E.
  - split; [|split].
    + intros l0 Hin. apply in_app_or in Hin as [Hin | [<- | []]].
      * destruct (Hmem l0 Hin) as ([k members] & Hg & Hl0).
        exists (k, if covers l k then members ++ [l] else members).
        split.
        -- unfold joined. apply in_map_iff. now exists (k, members).
        -- simpl in *. destruct (covers l k); [|exact Hl0].
           apply in_or_app. now left.
      * apply existsb_exists in E as (k & Hk & Hcov).
        apply in_map_iff in Hk as ([k' members] & Hfst & Hg).
        simpl in Hfst. subst k'.
        exists (k, if covers l k then members ++ [l] else members).
        split.
        -- unfold joined. apply in_map_iff. now exists (k, members).
        -- simpl. rewrite Hcov. apply in_or_app. right. now left.
    + rewrite joined_length, length_app. simpl. lia.
    + unfold joined. apply Forall_forall. intros g Hin.
      apply in_map_iff in Hin as ([k members] & <- & Hg). simpl.
      rewrite Forall_forall in Hfull. specialize (Hfull _ Hg). simpl in Hfull.
      destruct (covers l k); [|exact Hfull].
      intros H. now apply app_eq_nil in H as [H _].
  - split; [|split].
    + intros l0 Hin. apply in_app_or in Hin as [Hin | [<- | []]].
      * destruct (Hmem l0 Hin) as (g & Hg & Hl0).
        exists g. split; [apply in_or_app; now left | exact Hl0].
      * exists (line_center l, [l]).
        split; [apply in_or_app; right; now left | now left].
    + rewrite !length_app. simpl. lia.
    + apply Forall_app. split; [exact Hfull|].
      constructor; [discriminate | constructor].
Qed.

Lemma add_lines_hold (lines : list line) (groups : groups_dict)
    (seen : list line) :
  Forall line_ok lines -> groups_hold groups seen ->
  exists groups',
    add_lines groups lines = Ok groups' /\
    groups_hold groups' (seen ++ lines).
Proof.
  intros Hl. revert groups seen.
  induction Hl as [|l lines Hok _ IH]; intros groups seen Hh.
  - exists groups. rewrite app_nil_r. now split.
  - cbn [add_lines].
    destruct (add_line_holds Hok Hh) as (g1 & -> & H1). cbn [bind].
    destruct (IH g1 (seen ++ [l]) H1) as (g2 & E & H2).
    exists g2. split; [exact E|]. now rewrite <- app_assoc in H2.
Qed.

Lemma add_candidates_hold (candidate_lines : list (list line))
    (groups : groups_dict) (seen : list line) :
  Forall (Forall line_ok) candidate_lines -> groups_hold groups seen ->
  exists groups',
    add_candidates groups candidate_lines = Ok groups' /\
    groups_hold groups' (seen ++ concat candidate_lines).
Proof.
  intros Hl. revert groups seen.
  induction Hl as [|lines rest Hok _ IH]; intros groups seen Hh.
  - exists groups. simpl. rewrite app_nil_r. now split.
  - cbn [add_candidates concat].
    destruct (add_lines_hold Hok Hh) as (g1 & -> & H1). cbn [bind].
    destruct (IH g1 (seen ++ lines) H1) as (g2 & E & H2).
    exists g2. split; [exact E|]. now rewrite <- app_assoc in H2.
Qed.

(** X20. Over non-empty lines of centered rectangles the grouper loses no
    line: every line of every source is a member of at least one returned
    group, no group is empty, and there are at most as many groups as
    lines. *)
Theorem align_lines_keeps_every_line (candidate_lines : list (list line)) :
  Forall (Forall line_ok) candidate_lines ->
  exists groups,
    align_lines candidate_lines = Ok groups /\
    (forall lines l,
       In lines candidate_lines -> In l lines ->
       exists group, In group groups /\ In l group) /\
    Forall (fun group => group <> []) groups /\
    length groups <= length (concat candidate_lines).
Proof.
  intros Hok.
  destruct (@add_candidates_hold candidate_lines [] [] Hok)
    as (d & E & Hmem & Hlen & Hfull).
  { split; [intros l []|]. split; [simpl; lia | constructor]. }
  exists (map snd d). unfold align_lines, align_lines_groups. rewrite E.
  split; [reflexivity|]. split; [|split].
  - intros lines l Hlines Hl.
    destruct (Hmem l) as (g & Hg & Hin).
    { simpl. apply in_concat. now exists lines. }
    exists (snd g). split; [now apply in_map | exact Hin].
  - apply Forall_forall. intros group Hin.
    apply in_map_iff in Hin as (g & <- & Hg).
    rewrite Forall_forall in Hfull. now apply Hfull.
  - rewrite length_map. exact Hlen.
Qed.

Lemma align_lines_keeps_every_line_witness :
  let candidate_lines :=
    [[[word_box 0 0 "a"; word_box 12 1 "b"]; [word_box 0 40 "c"]];
     [[word_box 0 2 "ab"]]] in
  exists groups,
    align_lines candidate_lines = Ok groups /\
    length groups <= length (concat candidate_lines).
Proof.
  intros candidate_lines.
  destruct (@align_lines_keeps_every_line candidate_lines)
    as (groups & Hgroups & _ & _ & Hlen).
  - repeat constructor; try discriminate; unfold centered; simpl; lra.
  - exists groups. split; [exact Hgroups | exact Hlen].
Defined.

(** X21. Over non-empty lines of centered rectangles, two lines that share
    a returned group have vertical spans that share a height: lines with
    disjoint spans never land in one group. *)
Theorem align_lines_members_overlap (candidate_lines : list (list line))
    (groups : list (list line)) (group : list line) (l1 l2 : line) :
  Forall (Forall line_ok) candidate_lines ->
  align_lines candidate_lines = Ok groups ->
  In group groups -> In l1 group -> In l2 group ->
  spans_overlap l1 l2.
Proof.
  intros Hok Halign Hgroup H1 H2.
  destruct (@add_candidates_ok candidate_lines [] Hok) as (d & E & Hd);
    [constructor|].
  unfold align_lines, align_lines_groups in Halign. rewrite E in Halign.
  cbn [bind] in Halign. injection Halign as <-.
  apply in_map_iff in Hgroup as ([center members] & <- & Hg).
  rewrite Forall_forall in Hd. destruct (Hd _ Hg) as [Hall _].
  simpl in *. rewrite Forall_forall in Hall.
  exists center. split; now apply Hall.
Qed.

Lemma align_lines_members_overlap_witness :
  spans_overlap [word_box 0 0 "a"; word_box 12 1 "b"] [word_box 0 2 "ab"].
Proof.
  eapply (@align_lines_members_overlap
            [[[word_box 0 0 "a"; word_box 12 1 "b"]]; [[word_box 0 2 "ab"]]]).
  - repeat constructor; try discriminate; unfold centered; simpl; lra.
  - vm_compute. reflexivity.
  - left. reflexivity.
  - left. reflexivity.
  - right. left. reflexivity.
Defined.

(** ** Region sanity checker *)

(** X22. The check only counts: sources that found nothing do not change
    its answer, and neither does the order of the sources. *)
Theorem check_barcode_area_counts_only (R : Type)
    (candidates : list (list R)) :
  check_barcode_area (filter nonempty candidates)
  = check_barcode_area candidates /\
  forall candidates',
    Permutation candidates candidates' ->
    check_barcode_area candidates' = check_barcode_area candidates.
Proof.
  unfold check_barcode_area. split.
  - assert (H : forallb (fun i => i <=? 1)
                  (map (@length R) (filter nonempty candidates))
                = forallb (fun i => i <=? 1) (map (@length R) candidates) /\
                list_sum (map (@length R) (filter nonempty candidates))
                = list_sum (map (@length R) candidates)).
    { unfold list_sum.
      induction candidates as [|c cs [IH1 IH2]]; [now split|].
      destruct c as [|r c]; cbn [filter nonempty map forallb fold_right].
      - split; [exact IH1 | exact IH2].
      - now rewrite IH1, IH2. }
    destruct H as [-> ->]. reflexivity.
  - intros candidates' Hperm.
    assert (H : forallb (fun i => i <=? 1) (map (@length R) candidates')
                = forallb (fun i => i <=? 1) (map (@length R) candidates) /\
                list_sum (map (@length R) candidates')
                = list_sum (map (@length R) candidates)).
    { unfold list_sum.
      induction Hperm as [|c cs cs' _ [IH1 IH2]
                         |c c' cs
                         |cs cs' cs'' _ [IH1 IH2] _ [IH3 IH4]].
      - now split.
      - cbn [map forallb fold_right]. now rewrite IH1, IH2.
      - cbn [map forallb fold_right]. split.
        + now rewrite !andb_assoc, (andb_comm (length c' <=? 1)).
        + lia.
      - split; congruence. }
    destruct H as [-> ->]. reflexivity.
Qed.

Lemma check_barcode_area_counts_only_witness :
  check_barcode_area [[]; [word_box 0 0 "code"]]
  = check_barcode_area [[word_box 0 0 "code"]; []].
Proof.
  apply (proj2 (check_barcode_area_counts_only
                  [[word_box 0 0 "code"]; []])).
  apply perm_swap.
Defined.
